(** * Waypoint updater: localisation and velocity profile

    A shallow embedding of [ros/src/waypoint_updater/waypoint_updater.py].

    Conventions of the embedding.
    - Python floats are modelled by exact rationals ([Q]).  The only
      irrational operation of the source, [math.sqrt], occurs under a
      comparison [dist < min_dist] of non-negative numbers, which is
      modelled by the same comparison of the squares.  The model has no
      rounding, underflow or overflow: between waypoints whose distances
      to the car round to the same float the source can select another
      index than the model.  No theorem of this file states which of the
      scanned indices the scan selects; the general theorems take the
      index that localisation returns as given.
    - A Python [list] of [Waypoint] messages is a list of references to
      mutable objects.  The object store is the list held in
      [self.waypoints]; a reference is a position in that list.  The list
      [next_wps] built by [send_next_waypoints] is a list of such
      references, so a write through [next_wps] is a write to the store.
    - An uncaught Python exception ends the callback; the fields assigned
      before it keep their new values. *)

From Stdlib Require Import ZArith QArith Lia Lqa List Bool.
From stdpp Require Import base list.

Open Scope Z_scope.

(** ** Constants (lines 38-40) *)

Definition LOOKAHEAD_WPS : Z := 200.
Definition MAX_SPEED_METERS_PER_SEC : Q := (20 * 0.447)%Q.
Definition SLOWDOWN_WPS : Z := 100.

(** [sys.maxsize] of a 64-bit CPython. *)
Definition sys_maxsize : Z := 2 ^ 63 - 1.

(** ** Messages *)

(** [styx_msgs/Waypoint]: [pose.pose.position.{x,y,z}] and
    [twist.twist.linear.x]. *)
Record Waypoint := mkWaypoint {
  position_x : Q;
  position_y : Q;
  position_z : Q;
  linear_x : Q
}.

(** [geometry_msgs/Pose], of which only [position.x] and [position.y] are
    read. *)
Record Pose := mkPose {
  pose_x : Q;
  pose_y : Q
}.

(** ** Python exceptions and list indexing *)

Inductive exn := IndexError | TypeError | ValueError.

(** [range(a, b)]. *)
Definition py_range (a b : Z) : list Z := seqZ a (b - a).

(** The position read by [l[i]] in a list of length [n]: a negative [i]
    counts from the end, anything outside [-n <= i < n] raises
    [IndexError]. *)
Definition py_index (n : nat) (i : Z) : exn + nat :=
  if (0 <=? i) && (i <? Z.of_nat n) then inr (Z.to_nat i)
  else if (- Z.of_nat n <=? i) && (i <? 0) then inr (Z.to_nat (Z.of_nat n + i))
  else inl IndexError.

Definition py_getitem {A} (l : list A) (i : Z) : exn + A :=
  match py_index (length l) i with
  | inl e => inl e
  | inr p => match l !! p with
             | Some a => inr a
             | None => inl IndexError
             end
  end.

(** [max(0, v)]: the first argument is kept unless the second is strictly
    greater. *)
Definition py_max0 (v : Q) : Q :=
  if Qle_bool v 0 then 0%Q else v.

(** [a < b] on rationals. *)
Definition Qlt_bool (a b : Q) : bool := negb (Qle_bool b a).

(** ** The node's state (lines 70-74) *)

Record WaypointUpdater := mkWaypointUpdater {
  waypoints : option (list Waypoint);
  current_pose : option Pose;
  red_light_wp : Z;
  last_wp_id : option Z;
  upcoming_light_state : option Z
}.

Definition init : WaypointUpdater :=
  mkWaypointUpdater None None (-1) None None.

Definition set_waypoints (self : WaypointUpdater) (w : list Waypoint) :=
  mkWaypointUpdater (Some w) (current_pose self) (red_light_wp self)
                    (last_wp_id self) (upcoming_light_state self).
Definition set_current_pose (self : WaypointUpdater) (p : Pose) :=
  mkWaypointUpdater (waypoints self) (Some p) (red_light_wp self)
                    (last_wp_id self) (upcoming_light_state self).
Definition set_red_light_wp (self : WaypointUpdater) (i : Z) :=
  mkWaypointUpdater (waypoints self) (current_pose self) i
                    (last_wp_id self) (upcoming_light_state self).
Definition set_last_wp_id (self : WaypointUpdater) (i : Z) :=
  mkWaypointUpdater (waypoints self) (current_pose self) (red_light_wp self)
                    (Some i) (upcoming_light_state self).
Definition set_upcoming_light_state (self : WaypointUpdater) (s : Z) :=
  mkWaypointUpdater (waypoints self) (current_pose self) (red_light_wp self)
                    (last_wp_id self) (Some s).

(** What one run of a callback does besides changing the state. *)
Inductive outcome :=
| NotReady                         (* the [return] of line 125 *)
| Skipped                          (* [waypoints_cb], path already stored *)
| Raised (e : exn)                 (* an uncaught exception *)
| Aborted                          (* the [return] of line 199 *)
| Published (lane : list Waypoint) (* [final_waypoints_pub.publish] *).

(** ** Accessors (lines 109-113) *)

Definition get_waypoint_velocity (waypoint : Waypoint) : Q := linear_x waypoint.

Definition with_linear_x (velocity : Q) (w : Waypoint) : Waypoint :=
  mkWaypoint (position_x w) (position_y w) (position_z w) velocity.

(** [waypoints[waypoint].twist.twist.linear.x = velocity], where [waypoints]
    is a list of references into [store]. *)
Definition set_waypoint_velocity (store : list Waypoint) (wps : list nat)
    (waypoint : Z) (velocity : Q) : exn + list Waypoint :=
  match py_getitem wps waypoint with
  | inl e => inl e
  | inr r => inr (alter (with_linear_x velocity) r store)
  end.

(** ** Localisation (lines 132-156) *)

(** The loop variables of the scan, and the store positions it has read
    ([examined] is ghost state: the source has no such variable). *)
Record scan := mkScan {
  min_dist2 : Q;         (* the square of [min_dist] *)
  min_loc : option Z;
  examined : list nat
}.

Definition scan_init : scan :=
  mkScan (inject_Z (sys_maxsize * sys_maxsize)) None [].

Definition dist2 (carx cary : Q) (w : Waypoint) : Q :=
  ((carx - position_x w) ^ 2 + (cary - position_y w) ^ 2)%Q.

(** The body of the loop of line 143. *)
Definition scan_step (wps : list Waypoint) (carx cary : Q) (i : Z) (s : scan)
    : exn + scan :=
  match py_index (length wps) i with
  | inl e => inl e
  | inr p =>
    match wps !! p with
    | None => inl IndexError
    | Some waypoint =>
      let d := dist2 carx cary waypoint in
      if Qlt_bool d (min_dist2 s)
      then inr (mkScan d (Some i) (examined s ++ [p]))
      else inr (mkScan (min_dist2 s) (min_loc s) (examined s ++ [p]))
    end
  end.

(** The loop of line 143 over the indices [offs]; the loop variables
    reached when an exception is raised are returned with it. *)
Fixpoint scan_loop (wps : list Waypoint) (carx cary : Q) (offs : list Z)
    (s : scan) : scan * option exn :=
  match offs with
  | [] => (s, None)
  | i :: rest =>
    match scan_step wps carx cary i s with
    | inl e => (s, Some e)
    | inr s' => scan_loop wps carx cary rest s'
    end
  end.

(** Lines 135-140: the bounds of the scan. *)
Definition scan_bounds (wps : list Waypoint) (last : option Z) : Z * Z :=
  match last with
  | None => (0, Z.of_nat (length wps))
  | Some l => (l - 20, l + 20)
  end.

Definition scan_path (wps : list Waypoint) (pose : Pose) (last : option Z)
    : scan * option exn :=
  let '(start_index, end_index) := scan_bounds wps last in
  scan_loop wps (pose_x pose) (pose_y pose)
            (py_range start_index end_index) scan_init.

(** Lines 132-156: the scan followed by [self.waypoints[min_loc]], which
    raises [TypeError] when [min_loc] is still [None]. *)
Definition closest_wp (wps : list Waypoint) (pose : Pose) (last : option Z)
    : exn + Z :=
  match scan_path wps pose last with
  | (_, Some e) => inl e
  | (s, None) =>
    match min_loc s with
    | None => inl TypeError
    | Some m =>
      match py_getitem wps m with
      | inl e => inl e
      | inr _ => inr m
      end
    end
  end.

(** ** The window (line 164) *)

(** [list(islice(cycle(l), start, stop))] as references into [l], for
    [0 <= start]: [cycle] of an empty list yields nothing. *)
Definition islice_cycle (n : nat) (start stop : Z) : list nat :=
  match n with
  | O => []
  | _ => (fun k => Z.to_nat (k mod Z.of_nat n)) <$> py_range start stop
  end.

(** ** The velocity profile (lines 191-224) *)

Definition slope : Q := (MAX_SPEED_METERS_PER_SEC / inject_Z SLOWDOWN_WPS)%Q.

(** The velocity that iteration [i] of the loop of line 205 passes to
    [set_waypoint_velocity]. *)
Definition new_velocity (is_red_light_ahead : bool) (red min_loc i : Z) : Q :=
  if negb is_red_light_ahead || (red <? i) then MAX_SPEED_METERS_PER_SEC
  else
    let wp_to_go := red - min_loc - i in
    let target_vel :=
      if wp_to_go <? 5 then 0%Q
      else (MAX_SPEED_METERS_PER_SEC
            - inject_Z (SLOWDOWN_WPS - wp_to_go) * slope)%Q in
    py_max0 target_vel.

(** The loop of line 205, over the offsets [offs]; the store reached when an
    exception is raised is returned with it. *)
Fixpoint speed_loop (is_red_light_ahead : bool) (red min_loc : Z)
    (next_wps : list nat) (offs : list Z) (store : list Waypoint)
    : list Waypoint * option exn :=
  match offs with
  | [] => (store, None)
  | i :: rest =>
    match set_waypoint_velocity store next_wps i
            (new_velocity is_red_light_ahead red min_loc i) with
    | inl e => (store, Some e)
    | inr store' =>
      speed_loop is_red_light_ahead red min_loc next_wps rest store'
    end
  end.

(** The waypoints a list of references denotes in a store. *)
Definition deref (store : list Waypoint) (refs : list nat) : list Waypoint :=
  omap (fun r => store !! r) refs.

Definition is_red_light_ahead_of (red min_loc : Z) : bool :=
  negb (red =? -1) && (red - min_loc <? 100).

(** ** [send_next_waypoints] (lines 123-232) *)

Definition send_next_waypoints (self : WaypointUpdater)
    : WaypointUpdater * outcome :=
  match waypoints self, current_pose self with
  | Some wps, Some pose =>
    match closest_wp wps pose (last_wp_id self) with
    | inl e => (self, Raised e)
    | inr min_loc =>
      let self := set_last_wp_id self min_loc in
      if min_loc <? 0 then (self, Raised ValueError)
      else
        let next_wps :=
          islice_cycle (length wps) min_loc (min_loc + LOOKAHEAD_WPS - 1) in
        let red := red_light_wp self in
        let is_red_light_ahead := is_red_light_ahead_of red min_loc in
        if is_red_light_ahead && (red <=? min_loc) then (self, Aborted)
        else
          match speed_loop is_red_light_ahead red min_loc next_wps
                  (py_range 0 (Z.of_nat (length next_wps) - 1)) wps with
          | (store, Some e) => (set_waypoints self store, Raised e)
          | (store, None) =>
            (set_waypoints self store, Published (deref store next_wps))
          end
    end
  | _, _ => (self, NotReady)
  end.

(** ** Callbacks (lines 78-103) *)

Definition pose_cb (self : WaypointUpdater) (msg : Pose) :=
  send_next_waypoints (set_current_pose self msg).

Definition waypoints_cb (self : WaypointUpdater) (lane : list Waypoint) :=
  match waypoints self with
  | None => send_next_waypoints (set_waypoints self lane)
  | Some _ => (self, Skipped)
  end.

Definition traffic_cb (self : WaypointUpdater) (light_idx : Z) :=
  send_next_waypoints (set_red_light_wp self light_idx).

Definition traffic_state_cb (self : WaypointUpdater) (state : Z) :=
  set_upcoming_light_state self state.

(** ** Auxiliary notions of the proofs *)

(** The store position of a valid Python index. *)
Definition wrap_index (n : nat) (i : Z) : nat :=
  Z.to_nat (if i <? 0 then Z.of_nat n + i else i).

(** What iteration [i] of the speed loop does to the object at store
    position [p]. *)
Definition write_at (is_red_light_ahead : bool) (red min_loc : Z)
    (next_wps : list nat) (p : nat) (w : Waypoint) (i : Z) : Waypoint :=
  if decide (next_wps !! Z.to_nat i = Some p)
  then with_linear_x (new_velocity is_red_light_ahead red min_loc i) w
  else w.

(** The store position of window offset [i] when the window starts at
    [m]. *)
Definition window_pos (n : nat) (m i : Z) : nat :=
  Z.to_nat ((m + i) mod Z.of_nat n).

(** The position of a waypoint: all of it but the speed. *)
Definition place (w : Waypoint) : Q * Q * Q :=
  (position_x w, position_y w, position_z w).

(** The velocity of an iteration that is [r] waypoints before the stop
    (lines 219-223). *)
Definition ramp (r : Z) : Q :=
  py_max0 (if r <? 5 then 0%Q
           else (MAX_SPEED_METERS_PER_SEC
                 - inject_Z (SLOWDOWN_WPS - r)
                   * (MAX_SPEED_METERS_PER_SEC / inject_Z SLOWDOWN_WPS))%Q).

(** ** Test data *)

(** A straight path of [n] waypoints, one unit apart on the x axis, all with
    the nominal speed [v]. *)
Definition line_path (n : nat) (v : Q) : list Waypoint :=
  (fun k => mkWaypoint (inject_Z (Z.of_nat k)) 0 0 v) <$> seq 0 n.

Definition at_x (x : Z) : Pose := mkPose (inject_Z x) 0.

Definition lane_of (o : outcome) : option (list Waypoint) :=
  match o with Published l => Some l | _ => None end.

(** A node that holds a path and a pose. *)
Definition ready (wps : list Waypoint) (pose : Pose) (red : Z)
    (last : option Z) : WaypointUpdater :=
  mkWaypointUpdater (Some wps) (Some pose) red last None.

(** A track of 300 waypoints with the nominal speed 5. *)
Definition track : list Waypoint := line_path 300 5.

(** ** The node as an event handler (lines 54-57) *)

(** A message on one of the four subscribed topics. *)
Inductive event :=
| EPose (msg : Pose)                 (* [/current_pose] *)
| EWaypoints (lane : list Waypoint)  (* [/base_waypoints] *)
| ETraffic (light_idx : Z)           (* [/traffic_waypoint] *)
| ETrafficState (state : Z)          (* [/upcoming_traffic_light] *).

(** The callback of an event; [traffic_state_cb] runs no cycle. *)
Definition dispatch (self : WaypointUpdater) (e : event)
    : WaypointUpdater * option outcome :=
  match e with
  | EPose msg => let r := pose_cb self msg in (fst r, Some (snd r))
  | EWaypoints lane => let r := waypoints_cb self lane in (fst r, Some (snd r))
  | ETraffic light_idx =>
    let r := traffic_cb self light_idx in (fst r, Some (snd r))
  | ETrafficState state => (traffic_state_cb self state, None)
  end.

(** The window a callback publishes, if any. *)
Definition emitted (o : option outcome) : option (list Waypoint) :=
  match o with Some (Published lane) => Some lane | _ => None end.

(** The node over a sequence of messages.  An exception raised by a
    callback ends that callback only: the state it has reached is the
    state the next callback starts from. *)
Definition run (evs : list event) (self : WaypointUpdater) : WaypointUpdater :=
  fold_left (fun s e => fst (dispatch s e)) evs self.

(** The windows published over a sequence of messages, oldest first. *)
Fixpoint published (evs : list event) (self : WaypointUpdater)
    : list (list Waypoint) :=
  match evs with
  | [] => []
  | e :: rest =>
    let r := dispatch self e in
    match emitted (snd r) with
    | Some lane => lane :: published rest (fst r)
    | None => published rest (fst r)
    end
  end.

Definition is_waypoints (e : event) : bool :=
  match e with EWaypoints _ => true | _ => false end.

Definition is_pose (e : event) : bool :=
  match e with EPose _ => true | _ => false end.

(** [last_wp_id], when set, is an index that Python accepts for the stored
    path. *)
Definition last_wp_id_ok (self : WaypointUpdater) : Prop :=
  match last_wp_id self with
  | None => True
  | Some l =>
    exists wps, waypoints self = Some wps /\
                - Z.of_nat (length wps) <= l < Z.of_nat (length wps)
  end.

(** ** [distance] (lines 115-121) *)

(** The lambda [dl] of line 117; [math.sqrt] is the parameter [sqrt]. *)
Definition dl (sqrt : Q -> Q) (a b : Waypoint) : Q :=
  sqrt ((position_x a - position_x b) ^ 2
        + (position_y a - position_y b) ^ 2
        + (position_z a - position_z b) ^ 2)%Q.

(** The loop of line 118 over the indices [offs], with the loop-carried
    [wp1] and [dist]. *)
Fixpoint distance_loop (sqrt : Q -> Q) (wps : list Waypoint) (offs : list Z)
    (wp1 : Z) (dist : Q) : exn + Q :=
  match offs with
  | [] => inr dist
  | i :: rest =>
    match py_getitem wps wp1 with
    | inl e => inl e
    | inr a =>
      match py_getitem wps i with
      | inl e => inl e
      | inr b => distance_loop sqrt wps rest i (dist + dl sqrt a b)%Q
      end
    end
  end.

Definition distance (sqrt : Q -> Q) (wps : list Waypoint) (wp1 wp2 : Z)
    : exn + Q :=
  distance_loop sqrt wps (py_range wp1 (wp2 + 1)) wp1 0%Q.

(** * Properties *)

(** ** Python ranges and indexing *)

Lemma py_range_nil (a b : Z) : b <= a -> py_range a b = [].
Proof.
  intros H. unfold py_range, seqZ.
  replace (Z.to_nat (b - a)) with 0%nat by lia. reflexivity.
Qed.

Lemma py_range_cons (a b : Z) : a < b -> py_range a b = a :: py_range (a + 1) b.
Proof.
  intros H. unfold py_range. rewrite seqZ_cons by lia.
  f_equal. f_equal; lia.
Qed.

Lemma length_py_range (a b : Z) : length (py_range a b) = Z.to_nat (b - a).
Proof. unfold py_range. apply length_seqZ. Qed.

Lemma lookup_py_range (a b : Z) (k : nat) :
  Z.of_nat k < b - a -> py_range a b !! k = Some (a + Z.of_nat k).
Proof. intros H. unfold py_range. apply lookup_seqZ. lia. Qed.


Lemma py_index_valid (n : nat) (i : Z) :
  - Z.of_nat n <= i < Z.of_nat n ->
  py_index n i = inr (wrap_index n i) /\ (wrap_index n i < n)%nat.
Proof.
  intros H. unfold py_index, wrap_index.
  destruct (Z.ltb_spec i 0) as [Hn | Hp].
  - replace (0 <=? i) with false by (symmetry; apply Z.leb_gt; lia).
    replace (- Z.of_nat n <=? i) with true by (symmetry; apply Z.leb_le; lia).
    simpl. split; [reflexivity | lia].
  - replace (0 <=? i) with true by (symmetry; apply Z.leb_le; lia).
    replace (i <? Z.of_nat n) with true by (symmetry; apply Z.ltb_lt; lia).
    simpl. split; [reflexivity | lia].
Qed.

Lemma py_index_invalid (n : nat) (i : Z) :
  i < - Z.of_nat n \/ Z.of_nat n <= i -> py_index n i = inl IndexError.
Proof.
  intros H. unfold py_index.
  destruct (Z.leb_spec 0 i), (Z.ltb_spec i (Z.of_nat n)),
    (Z.leb_spec (- Z.of_nat n) i), (Z.ltb_spec i 0); simpl;
    try reflexivity; lia.
Qed.

Lemma py_getitem_valid {A} (l : list A) (i : Z) :
  - Z.of_nat (length l) <= i < Z.of_nat (length l) ->
  exists a, py_getitem l i = inr a /\ l !! wrap_index (length l) i = Some a.
Proof.
  intros H. unfold py_getitem.
  destruct (py_index_valid (length l) i H) as [-> Hlt].
  destruct (lookup_lt_is_Some_2 l _ Hlt) as [a Ha].
  exists a. rewrite Ha. auto.
Qed.

(** ** The localisation scan *)

Section Scan.
Variable wps : list Waypoint.
Variables carx cary : Q.

Lemma scan_step_valid (i : Z) (s : scan) :
  - Z.of_nat (length wps) <= i < Z.of_nat (length wps) ->
  exists s', scan_step wps carx cary i s = inr s' /\
             examined s' = examined s ++ [wrap_index (length wps) i] /\
             (min_loc s' = Some i \/ min_loc s' = min_loc s).
Proof.
  intros H. unfold scan_step.
  destruct (py_index_valid (length wps) i H) as [-> Hlt].
  destruct (lookup_lt_is_Some_2 wps _ Hlt) as [w ->].
  destruct (Qlt_bool _ _); eexists; simpl; eauto.
Qed.

Lemma scan_step_invalid (i : Z) (s : scan) :
  i < - Z.of_nat (length wps) \/ Z.of_nat (length wps) <= i ->
  scan_step wps carx cary i s = inl IndexError.
Proof.
  intros H. unfold scan_step. rewrite py_index_invalid; auto.
Qed.

(** A scan of [range(a, b)] that starts at a valid index reads the
    positions of the indices from [a] up to [b] or the length of the
    path, whichever is less, in this order and wrapping negative indices
    to the end of the list; it raises [IndexError] when [b] exceeds the
    length. *)
Lemma scan_loop_range (k : nat) : forall (a b n : Z) (s : scan),
  n = Z.of_nat (length wps) ->
  Z.to_nat (b - a) = k -> - n <= a <= n -> a <= b ->
  exists s',
    scan_loop wps carx cary (py_range a b) s
      = (s', if b <=? n then None else Some IndexError) /\
    examined s'
      = examined s ++ (wrap_index (length wps) <$> py_range a (Z.min b n)).
Proof.
  induction k as [|k IH]; intros a b n s Hn Hk Ha Hab.
  - rewrite (py_range_nil a b) by lia. simpl.
    rewrite (py_range_nil a (Z.min b n)) by lia.
    exists s. rewrite app_nil_r.
    replace (b <=? n) with true by (symmetry; apply Z.leb_le; lia).
    auto.
  - rewrite (py_range_cons a b) by lia. simpl.
    destruct (Z.lt_ge_cases a n) as [HaN | HaN].
    + destruct (scan_step_valid a s) as (s1 & -> & Hex & _); [lia|].
      destruct (IH (a + 1) b n s1) as (s' & -> & Hex');
        [lia | lia | lia | lia |].
      exists s'. split; [reflexivity|].
      rewrite Hex', Hex, <- app_assoc. simpl.
      rewrite (py_range_cons a (Z.min b n)) by lia. reflexivity.
    + rewrite scan_step_invalid by lia.
      exists s. replace (b <=? n) with false
        by (symmetry; apply Z.leb_gt; lia).
      split; [reflexivity|].
      rewrite (py_range_nil a (Z.min b n)) by lia.
      simpl. rewrite app_nil_r. reflexivity.
Qed.
End Scan.

(** ** The speed loop *)

Lemma wrap_index_nonneg (n : nat) (i : Z) :
  0 <= i -> wrap_index n i = Z.to_nat i.
Proof.
  intros H. unfold wrap_index.
  replace (i <? 0) with false by (symmetry; apply Z.ltb_ge; lia). reflexivity.
Qed.

Lemma set_waypoint_velocity_valid (store : list Waypoint) (refs : list nat)
    (i : Z) (v : Q) :
  0 <= i < Z.of_nat (length refs) ->
  exists r, refs !! Z.to_nat i = Some r /\
            set_waypoint_velocity store refs i v
              = inr (alter (with_linear_x v) r store).
Proof.
  intros H. unfold set_waypoint_velocity.
  destruct (py_getitem_valid refs i) as (r & -> & Hr); [lia|].
  rewrite wrap_index_nonneg in Hr by lia. eauto.
Qed.

Lemma with_linear_x_idem (v v' : Q) (w : Waypoint) :
  with_linear_x v (with_linear_x v' w) = with_linear_x v w.
Proof. reflexivity. Qed.

Section SpeedLoop.
Variable ahead : bool.
Variables red m : Z.
Variable refs : list nat.

Lemma write_at_step (p r : nat) (i : Z) (w : Waypoint) :
  refs !! Z.to_nat i = Some r ->
  write_at ahead red m refs p w i
    = if decide (r = p) then with_linear_x (new_velocity ahead red m i) w
      else w.
Proof.
  intros Hr. unfold write_at. rewrite Hr.
  destruct (decide (Some r = Some p)) as [[= ->] | Hne];
    destruct (decide _); congruence.
Qed.

(** The loop never raises on offsets of [refs], keeps the length of the
    store, and leaves at every position the object it held, written by
    the iterations whose reference is this position. *)
Lemma speed_loop_lookup (offs : list Z) :
  Forall (fun i => 0 <= i < Z.of_nat (length refs)) offs ->
  forall store, exists store',
    speed_loop ahead red m refs offs store = (store', None) /\
    length store' = length store /\
    forall p,
      store' !! p
        = (fun w => fold_left (write_at ahead red m refs p) offs w)
          <$> store !! p.
Proof.
  induction 1 as [|i offs Hi _ IH]; intros store.
  - exists store. repeat split; auto.
    intros p. simpl. destruct (store !! p); reflexivity.
  - simpl.
    destruct (set_waypoint_velocity_valid store refs i
                (new_velocity ahead red m i) Hi) as (r & Hr & Hset).
    rewrite Hset.
    destruct (IH (alter (with_linear_x (new_velocity ahead red m i)) r store))
      as (store' & Hloop & Hlen & Hlook).
    exists store'. split; [exact Hloop|]. split.
    + rewrite Hlen. apply length_alter.
    + intros p. rewrite Hlook.
      pose proof (fun w => write_at_step p r i w Hr) as Hw.
      destruct (decide (r = p)) as [-> | Hne].
      * rewrite list_lookup_alter_eq.
        destruct (store !! p); simpl; [|reflexivity].
        rewrite Hw. reflexivity.
      * rewrite list_lookup_alter_ne by congruence.
        destruct (store !! p); simpl; [|reflexivity].
        rewrite Hw. reflexivity.
Qed.

(** The loop writes speeds only. *)
Lemma write_at_fold_place (p : nat) (offs : list Z) : forall w,
  place (fold_left (write_at ahead red m refs p) offs w) = place w.
Proof.
  induction offs as [|i offs IH]; intros w; simpl; auto.
  rewrite IH. unfold write_at. destruct (decide _); auto.
Qed.

(** A position that no iteration refers to keeps its object. *)
Lemma write_at_fold_none (p : nat) (offs : list Z) (w : Waypoint) :
  Forall (fun i => refs !! Z.to_nat i <> Some p) offs ->
  fold_left (write_at ahead red m refs p) offs w = w.
Proof.
  intros H. revert w. induction H as [|i offs Hi _ IH]; intros w; simpl; auto.
  rewrite IH. unfold write_at.
  destruct (decide _); [contradiction | auto].
Qed.

(** A position that exactly one iteration refers to holds the velocity
    of that iteration. *)
Lemma write_at_fold_one (p : nat) (l1 l2 : list Z) (j : Z) (w : Waypoint) :
  refs !! Z.to_nat j = Some p ->
  Forall (fun i => refs !! Z.to_nat i <> Some p) l2 ->
  fold_left (write_at ahead red m refs p) (l1 ++ j :: l2) w
    = with_linear_x (new_velocity ahead red m j)
        (fold_left (write_at ahead red m refs p) l1 w).
Proof.
  intros Hj H2. rewrite fold_left_app. simpl.
  rewrite write_at_fold_none by assumption.
  unfold write_at at 1.
  destruct (decide _); [reflexivity | contradiction].
Qed.
End SpeedLoop.

(** ** The window of references *)

Lemma py_range_split (a i b : Z) :
  a <= i < b -> py_range a b = py_range a i ++ i :: py_range (i + 1) b.
Proof.
  intros H. rewrite <- (py_range_cons i b) by lia. unfold py_range.
  replace (b - a) with ((i - a) + (b - i)) by lia.
  rewrite seqZ_app by lia. do 2 f_equal. lia.
Qed.

Lemma elem_of_py_range (a b x : Z) : x ∈ py_range a b <-> a <= x < b.
Proof. unfold py_range. rewrite elem_of_seqZ. lia. Qed.

Lemma mod_offset_inj (n m i j : Z) :
  0 < n -> - n < i - j < n -> (m + i) mod n = (m + j) mod n -> i = j.
Proof.
  intros Hn Hij Heq.
  pose proof (Z.div_mod (m + i) n ltac:(lia)) as Hi.
  pose proof (Z.div_mod (m + j) n ltac:(lia)) as Hj.
  rewrite Heq in Hi.
  set (d := (m + i) / n - (m + j) / n).
  assert (H : i - j = n * d) by (unfold d; lia).
  assert (Hd : d = 0) by nia.
  rewrite Hd in H. lia.
Qed.

Section Window.
Variable n : nat.
Variables start stop : Z.
Hypothesis n_pos : (0 < n)%nat.

Lemma length_islice_cycle :
  length (islice_cycle n start stop) = Z.to_nat (stop - start).
Proof.
  unfold islice_cycle. destruct n; [lia|].
  rewrite length_fmap. apply length_py_range.
Qed.

Lemma lookup_islice_cycle (k : nat) :
  Z.of_nat k < stop - start ->
  islice_cycle n start stop !! k
    = Some (Z.to_nat ((start + Z.of_nat k) mod Z.of_nat n)).
Proof.
  intros H. unfold islice_cycle. destruct n; [lia|].
  rewrite list_lookup_fmap, lookup_py_range by lia. reflexivity.
Qed.

Lemma islice_cycle_in_store :
  Forall (fun r => (r < n)%nat) (islice_cycle n start stop).
Proof.
  unfold islice_cycle. destruct n as [|n'] eqn:E; [constructor|].
  rewrite Forall_fmap. apply Forall_forall. intros k _. simpl.
  pose proof (Z.mod_pos_bound k (Z.of_nat (S n')) ltac:(lia)). lia.
Qed.
End Window.

(** Dereferencing a list of valid references keeps its length and order. *)
Lemma deref_lookup (store : list Waypoint) (refs : list nat) :
  Forall (fun r => (r < length store)%nat) refs ->
  length (deref store refs) = length refs /\
  forall i, deref store refs !! i = refs !! i ≫= (fun r => store !! r).
Proof.
  induction 1 as [|r refs Hr _ [IHlen IHlook]].
  - split; [reflexivity|]. intros i. reflexivity.
  - destruct (lookup_lt_is_Some_2 store r Hr) as [w Hw].
    unfold deref in *. simpl. rewrite Hw. simpl. split.
    + f_equal. exact IHlen.
    + intros [|i]; simpl; [rewrite Hw; reflexivity | apply IHlook].
Qed.

(** ** One cycle of [send_next_waypoints] *)

Lemma closest_wp_in_range (wps : list Waypoint) (pose : Pose) (last : option Z)
    (m : Z) :
  closest_wp wps pose last = inr m ->
  - Z.of_nat (length wps) <= m < Z.of_nat (length wps).
Proof.
  unfold closest_wp.
  destruct (scan_path wps pose last) as [s [e|]]; [discriminate|].
  destruct (min_loc s) as [m'|]; [|discriminate].
  destruct (py_getitem wps m') eqn:Hget; [discriminate|].
  intros [= <-]. unfold py_getitem in Hget.
  destruct (Z.lt_ge_cases m' (- Z.of_nat (length wps)));
    [rewrite py_index_invalid in Hget by lia; discriminate|].
  destruct (Z.lt_ge_cases m' (Z.of_nat (length wps))); [lia|].
  rewrite py_index_invalid in Hget by lia; discriminate.
Qed.

(** The cycle once the path and the pose are present and the closest
    waypoint is found. *)
Lemma send_next_waypoints_located (self : WaypointUpdater)
    (wps : list Waypoint) (pose : Pose) (m : Z) :
  waypoints self = Some wps -> current_pose self = Some pose ->
  closest_wp wps pose (last_wp_id self) = inr m ->
  send_next_waypoints self =
    let self1 := set_last_wp_id self m in
    if m <? 0 then (self1, Raised ValueError)
    else
      let next_wps := islice_cycle (length wps) m (m + LOOKAHEAD_WPS - 1) in
      let ahead := is_red_light_ahead_of (red_light_wp self) m in
      if ahead && (red_light_wp self <=? m) then (self1, Aborted)
      else
        match speed_loop ahead (red_light_wp self) m next_wps
                (py_range 0 (Z.of_nat (length next_wps) - 1)) wps with
        | (store, Some e) => (set_waypoints self1 store, Raised e)
        | (store, None) =>
          (set_waypoints self1 store, Published (deref store next_wps))
        end.
Proof.
  intros Hw Hp Hc. unfold send_next_waypoints. rewrite Hw, Hp, Hc. reflexivity.
Qed.

(** A cycle that is neither stopped by an exception nor aborted publishes
    the window of references, read from the store the speed loop leaves. *)
Lemma send_next_waypoints_publishes (self : WaypointUpdater)
    (wps : list Waypoint) (pose : Pose) (m : Z) :
  waypoints self = Some wps -> current_pose self = Some pose ->
  closest_wp wps pose (last_wp_id self) = inr m ->
  0 <= m ->
  is_red_light_ahead_of (red_light_wp self) m && (red_light_wp self <=? m)
    = false ->
  let next_wps := islice_cycle (length wps) m (m + LOOKAHEAD_WPS - 1) in
  let ahead := is_red_light_ahead_of (red_light_wp self) m in
  exists store,
    send_next_waypoints self
      = (set_waypoints (set_last_wp_id self m) store,
         Published (deref store next_wps)) /\
    length store = length wps /\
    (forall p, store !! p
       = (fun w => fold_left (write_at ahead (red_light_wp self) m next_wps p)
                     (py_range 0 198) w) <$> wps !! p) /\
    length (deref store next_wps) = 199%nat /\
    (forall i, (i < 199)%nat ->
       deref store next_wps !! i
         = store !! Z.to_nat ((m + Z.of_nat i) mod Z.of_nat (length wps))).
Proof.
  intros Hw Hp Hc Hm Hgo next_wps ahead.
  pose proof (closest_wp_in_range _ _ _ _ Hc) as Hrange.
  assert (Hn : (0 < length wps)%nat) by lia.
  assert (Hlen : length next_wps = 199%nat).
  { unfold next_wps. rewrite length_islice_cycle by lia.
    unfold LOOKAHEAD_WPS. lia. }
  rewrite (send_next_waypoints_located self wps pose m Hw Hp Hc). cbv zeta.
  replace (m <? 0) with false by (symmetry; apply Z.ltb_ge; lia).
  rewrite Hgo. fold next_wps ahead. rewrite Hlen.
  change (Z.of_nat 199 - 1) with 198.
  assert (Hoffs : Forall (fun i => 0 <= i < Z.of_nat (length next_wps))
                         (py_range 0 198)).
  { apply Forall_forall. intros i Hi. apply elem_of_py_range in Hi. lia. }
  destruct (speed_loop_lookup ahead (red_light_wp self) m next_wps
              (py_range 0 198) Hoffs wps)
    as (store & Hloop & Hslen & Hlook).
  rewrite Hloop. exists store.
  assert (Hvalid : Forall (fun r => (r < length store)%nat) next_wps).
  { rewrite Hslen. apply islice_cycle_in_store. lia. }
  destruct (deref_lookup store next_wps Hvalid) as [Hdlen Hdlook].
  repeat split; auto; [lia|].
  intros i Hi. rewrite Hdlook. unfold next_wps.
  rewrite lookup_islice_cycle by (unfold LOOKAHEAD_WPS; lia). reflexivity.
Qed.

(** ** The published speeds on a path that the window does not lap *)

(** On a path of at least 199 waypoints the 199 references of the window
    are pairwise distinct. *)
Lemma window_ref_inj (n : nat) (m i j : Z) :
  (199 <= n)%nat -> 0 <= i < 199 -> 0 <= j < 199 ->
  islice_cycle n m (m + LOOKAHEAD_WPS - 1) !! Z.to_nat j
    = Some (Z.to_nat ((m + i) mod Z.of_nat n)) ->
  j = i.
Proof.
  intros Hn Hi Hj. rewrite lookup_islice_cycle by (unfold LOOKAHEAD_WPS; lia).
  rewrite Z2Nat.id by lia. intros [= Heq].
  pose proof (Z.mod_pos_bound (m + i) (Z.of_nat n) ltac:(lia)).
  pose proof (Z.mod_pos_bound (m + j) (Z.of_nat n) ltac:(lia)).
  apply (mod_offset_inj (Z.of_nat n) m); lia.
Qed.

Lemma window_fold_assigned (ahead : bool) (red m : Z) (n : nat) (i : Z)
    (w : Waypoint) :
  (199 <= n)%nat -> 0 <= i < 198 ->
  fold_left (write_at ahead red m (islice_cycle n m (m + LOOKAHEAD_WPS - 1))
               (Z.to_nat ((m + i) mod Z.of_nat n)))
            (py_range 0 198) w
    = with_linear_x (new_velocity ahead red m i) w.
Proof.
  intros Hn Hi. rewrite (py_range_split 0 i 198) by lia.
  rewrite write_at_fold_one.
  - pose proof (write_at_fold_place ahead red m
                  (islice_cycle n m (m + LOOKAHEAD_WPS - 1))
                  (Z.to_nat ((m + i) mod Z.of_nat n)) (py_range 0 i) w)
      as Hplace.
    injection Hplace as Hx Hy Hz.
    unfold with_linear_x. rewrite Hx, Hy, Hz. reflexivity.
  - rewrite lookup_islice_cycle by (unfold LOOKAHEAD_WPS; lia).
    rewrite Z2Nat.id by lia. reflexivity.
  - apply Forall_forall. intros j Hj Hhit. apply elem_of_py_range in Hj.
    apply window_ref_inj in Hhit; lia.
Qed.

Lemma window_fold_last (ahead : bool) (red m : Z) (n : nat) (w : Waypoint) :
  (199 <= n)%nat ->
  fold_left (write_at ahead red m (islice_cycle n m (m + LOOKAHEAD_WPS - 1))
               (Z.to_nat ((m + 198) mod Z.of_nat n)))
            (py_range 0 198) w
    = w.
Proof.
  intros Hn. apply write_at_fold_none.
  apply Forall_forall. intros j Hj Hhit. apply elem_of_py_range in Hj.
  apply window_ref_inj in Hhit; lia.
Qed.


(** A publishing cycle on a path of at least 199 waypoints: the window has
    199 elements; offsets 0 to 197 carry the velocity of their iteration
    and offset 198 is the stored waypoint as it was. *)
Lemma send_next_waypoints_speeds (self : WaypointUpdater)
    (wps : list Waypoint) (pose : Pose) (m : Z) :
  waypoints self = Some wps -> current_pose self = Some pose ->
  closest_wp wps pose (last_wp_id self) = inr m ->
  0 <= m ->
  is_red_light_ahead_of (red_light_wp self) m && (red_light_wp self <=? m)
    = false ->
  (199 <= length wps)%nat ->
  exists self' lane,
    send_next_waypoints self = (self', Published lane) /\
    length lane = 199%nat /\
    (forall i, 0 <= i < 198 ->
       lane !! Z.to_nat i
         = with_linear_x
             (new_velocity (is_red_light_ahead_of (red_light_wp self) m)
                           (red_light_wp self) m i)
           <$> wps !! window_pos (length wps) m i) /\
    lane !! 198%nat = wps !! window_pos (length wps) m 198.
Proof.
  intros Hw Hp Hc Hm Hgo Hn.
  destruct (send_next_waypoints_publishes self wps pose m Hw Hp Hc Hm Hgo)
    as (store & Hsend & _ & Hlook & Hlen & Hderef).
  eexists _, _. split; [exact Hsend|]. split; [exact Hlen|]. split.
  - intros i Hi. rewrite Hderef by lia. rewrite Z2Nat.id by lia.
    rewrite Hlook. unfold window_pos.
    apply option_fmap_ext. intros w. apply window_fold_assigned; lia.
  - rewrite Hderef by lia. change (Z.of_nat 198) with 198.
    rewrite Hlook. unfold window_pos.
    rewrite <- (option_fmap_id (wps !! _)) at 2.
    apply option_fmap_ext. intros w. apply window_fold_last; lia.
Qed.

(** ** Inversion of a cycle *)

Lemma send_next_waypoints_aborted_inv (self self' : WaypointUpdater) :
  send_next_waypoints self = (self', Aborted) ->
  exists wps pose m,
    waypoints self = Some wps /\ current_pose self = Some pose /\
    closest_wp wps pose (last_wp_id self) = inr m /\
    0 <= m /\
    is_red_light_ahead_of (red_light_wp self) m = true /\
    red_light_wp self <= m /\
    self' = set_last_wp_id self m.
Proof.
  destruct (waypoints self) as [wps|] eqn:Hw;
    [|unfold send_next_waypoints; rewrite Hw; discriminate].
  destruct (current_pose self) as [pose|] eqn:Hp;
    [|unfold send_next_waypoints; rewrite Hw, Hp; discriminate].
  destruct (closest_wp wps pose (last_wp_id self)) as [e|m] eqn:Hc;
    [unfold send_next_waypoints; rewrite Hw, Hp, Hc; discriminate|].
  rewrite (send_next_waypoints_located self wps pose m Hw Hp Hc). cbv zeta.
  destruct (Z.ltb_spec m 0); [discriminate|].
  destruct (is_red_light_ahead_of (red_light_wp self) m) eqn:Ha; simpl.
  - destruct (Z.leb_spec (red_light_wp self) m).
    + intros [= <-]. exists wps, pose, m. auto 10.
    + destruct (speed_loop _ _ _ _ _ _) as [? [?|]]; discriminate.
  - destruct (speed_loop _ _ _ _ _ _) as [? [?|]]; discriminate.
Qed.

Lemma send_next_waypoints_published_inv (self self' : WaypointUpdater)
    (lane : list Waypoint) :
  send_next_waypoints self = (self', Published lane) ->
  exists wps pose m,
    waypoints self = Some wps /\ current_pose self = Some pose /\
    closest_wp wps pose (last_wp_id self) = inr m /\
    0 <= m /\
    is_red_light_ahead_of (red_light_wp self) m && (red_light_wp self <=? m)
      = false.
Proof.
  destruct (waypoints self) as [wps|] eqn:Hw;
    [|unfold send_next_waypoints; rewrite Hw; discriminate].
  destruct (current_pose self) as [pose|] eqn:Hp;
    [|unfold send_next_waypoints; rewrite Hw, Hp; discriminate].
  destruct (closest_wp wps pose (last_wp_id self)) as [e|m] eqn:Hc;
    [unfold send_next_waypoints; rewrite Hw, Hp, Hc; discriminate|].
  rewrite (send_next_waypoints_located self wps pose m Hw Hp Hc). cbv zeta.
  destruct (Z.ltb_spec m 0); [discriminate|].
  destruct (is_red_light_ahead_of (red_light_wp self) m
            && (red_light_wp self <=? m)) eqn:Hgo; [discriminate|].
  intros _. exists wps, pose, m. auto 10.
Qed.

(** Every published window has [LOOKAHEAD_WPS - 1] elements. *)
Lemma published_window_length (self self' : WaypointUpdater)
    (lane : list Waypoint) :
  send_next_waypoints self = (self', Published lane) ->
  Z.of_nat (length lane) = LOOKAHEAD_WPS - 1.
Proof.
  intros H.
  destruct (send_next_waypoints_published_inv _ _ _ H)
    as (wps & pose & m & Hw & Hp & Hc & Hm & Hgo).
  destruct (send_next_waypoints_publishes self wps pose m Hw Hp Hc Hm Hgo)
    as (store & Hsend & _ & _ & Hlen & _).
  rewrite H in Hsend. injection Hsend as _ ->.
  rewrite Hlen. reflexivity.
Qed.


(** * The claims *)

(** C1.  The claim asks for a window of [LOOKAHEAD_WPS] = 200 waypoints.
    Near the end of the track (closest waypoint 250 of 300) the published
    window wraps around but has 199 waypoints: [islice] stops before
    [min_loc + LOOKAHEAD_WPS - 1]. *)
Theorem C1_window_has_199_waypoints :
  exists self' lane,
    send_next_waypoints (ready track (at_x 250) (-1) None)
      = (self', Published lane) /\
    last_wp_id self' = Some 250 /\
    length lane = 199%nat /\
    Z.of_nat (length lane) <> LOOKAHEAD_WPS.
Proof.
  eexists _, _. split; [vm_compute; reflexivity|].
  split; [reflexivity|]. split; [vm_compute; reflexivity|].
  vm_compute. discriminate.
Qed.

(** C5.  The claim asks for [V_MAX] at every element of the window, the
    last included, when no stop is signalled.  The loop of line 205 runs
    over [range(len(next_wps) - 1)]: on the track the last element of the
    window (offset 198, waypoint 198) keeps its nominal speed 5, while the
    offset before it is set to the maximum speed. *)
Theorem C5_last_waypoint_keeps_nominal_speed :
  exists self' lane,
    send_next_waypoints (ready track (at_x 0) (-1) None)
      = (self', Published lane) /\
    length lane = 199%nat /\
    get_waypoint_velocity <$> lane !! 197%nat = Some MAX_SPEED_METERS_PER_SEC /\
    get_waypoint_velocity <$> lane !! 198%nat = Some 5%Q /\
    ~ (5 == MAX_SPEED_METERS_PER_SEC)%Q.
Proof.
  eexists _, _. split; [vm_compute; reflexivity|].
  split; [vm_compute; reflexivity|].
  split; [vm_compute; reflexivity|].
  split; [vm_compute; reflexivity|].
  vm_compute. discriminate.
Qed.

(** C4.  The claim asks that a cycle leaves the stored path as it was.
    The window holds the stored waypoint objects themselves, so the
    speeds written through it are written to the stored path: after one
    pose update the stored waypoint 0 has the maximum speed instead of
    its nominal speed 5. *)
Theorem C4_path_store_mutated :
  exists self' lane stored,
    pose_cb (mkWaypointUpdater (Some track) None (-1) None None) (at_x 0)
      = (self', Published lane) /\
    waypoints self' = Some stored /\
    get_waypoint_velocity <$> track !! 0%nat = Some 5%Q /\
    get_waypoint_velocity <$> stored !! 0%nat = Some MAX_SPEED_METERS_PER_SEC /\
    stored <> track.
Proof.
  eexists _, _, _. split; [vm_compute; reflexivity|].
  split; [reflexivity|].
  split; [vm_compute; reflexivity|].
  split; [vm_compute; reflexivity|].
  intros E.
  apply (f_equal (fun l => get_waypoint_velocity <$> l !! 0%nat)) in E.
  vm_compute in E. discriminate.
Qed.

(** ** The windowed scan *)

(** With [lastIndex = l] the scan visits [l - 20 .. l + 19] in increasing
    order.  An index in [-N, 0) reads the position [N + i], an index in
    [0, N) reads the position [i], and the first index outside [-N, N)
    raises [IndexError]. *)
Lemma scan_path_windowed (wps : list Waypoint) (pose : Pose) (l : Z) :
  exists s,
    scan_path wps pose (Some l)
      = (s, if (- Z.of_nat (length wps) <=? l - 20)
               && (l + 20 <=? Z.of_nat (length wps))
            then None else Some IndexError) /\
    examined s
      = if - Z.of_nat (length wps) <=? l - 20
        then wrap_index (length wps)
               <$> py_range (l - 20) (Z.min (l + 20) (Z.of_nat (length wps)))
        else [].
Proof.
  unfold scan_path, scan_bounds.
  destruct (Z.leb_spec (- Z.of_nat (length wps)) (l - 20)) as [Hlo | Hlo].
  - destruct (Z.le_gt_cases (l - 20) (Z.of_nat (length wps))) as [Hhi | Hhi].
    + destruct (scan_loop_range wps (pose_x pose) (pose_y pose) 40
                  (l - 20) (l + 20) (Z.of_nat (length wps)) scan_init)
        as (s & Hs & Hex); [reflexivity | lia | lia | lia |].
      exists s. split; [exact Hs | exact Hex].
    + exists scan_init. rewrite (py_range_cons (l - 20) (l + 20)) by lia.
      simpl. rewrite scan_step_invalid by lia.
      replace (l + 20 <=? Z.of_nat (length wps)) with false
        by (symmetry; apply Z.leb_gt; lia).
      rewrite py_range_nil by lia. auto.
  - exists scan_init. rewrite (py_range_cons (l - 20) (l + 20)) by lia.
    simpl. rewrite scan_step_invalid by lia. auto.
Qed.

(** The windowed localisation raises [IndexError] whenever its range
    leaves [-N, N). *)
Lemma closest_wp_windowed_raises (wps : list Waypoint) (pose : Pose) (l : Z) :
  Z.of_nat (length wps) < l + 20 \/ l - 20 < - Z.of_nat (length wps) ->
  closest_wp wps pose (Some l) = inl IndexError.
Proof.
  intros H. unfold closest_wp.
  destruct (scan_path_windowed wps pose l) as (s & -> & _).
  destruct (Z.leb_spec (- Z.of_nat (length wps)) (l - 20)),
    (Z.leb_spec (l + 20) (Z.of_nat (length wps))); simpl; auto; lia.
Qed.

(** The index the scan selects is one of the indices it visited. *)
Lemma scan_step_min_loc (wps : list Waypoint) (carx cary : Q) (i : Z)
    (s s' : scan) :
  scan_step wps carx cary i s = inr s' ->
  min_loc s' = Some i \/ min_loc s' = min_loc s.
Proof.
  unfold scan_step.
  destruct (py_index (length wps) i) as [e|p]; [discriminate|].
  destruct (wps !! p) as [w|]; [|discriminate].
  destruct (Qlt_bool _ _); intros [= <-]; simpl; auto.
Qed.

Lemma scan_loop_min_loc (wps : list Waypoint) (carx cary : Q) (offs : list Z) :
  forall (s s' : scan) (e : option exn),
  scan_loop wps carx cary offs s = (s', e) ->
  min_loc s' = min_loc s \/ exists i, i ∈ offs /\ min_loc s' = Some i.
Proof.
  induction offs as [|i offs IH]; intros s s' e; simpl.
  - intros [= <- _]. auto.
  - destruct (scan_step wps carx cary i s) as [e'|s1] eqn:Hstep.
    + intros [= <- _]. auto.
    + intros Hloop. apply scan_step_min_loc in Hstep.
      destruct (IH s1 s' e Hloop) as [Heq | (j & Hj & Hsel)].
      * rewrite Heq. destruct Hstep as [-> | ->]; auto.
        right. exists i. split; [left | reflexivity].
      * right. exists j. split; [right; exact Hj | exact Hsel].
Qed.

(** The full scan (no [lastIndex]) reads every waypoint once and never
    raises [IndexError]: it returns an index of [0 .. N - 1], or raises
    [TypeError] when no waypoint is nearer than [sys.maxsize] (so on an
    empty path). *)
Lemma closest_wp_full_scan (wps : list Waypoint) (pose : Pose) :
  closest_wp wps pose None = inl TypeError \/
  exists m, closest_wp wps pose None = inr m /\
            0 <= m < Z.of_nat (length wps).
Proof.
  unfold closest_wp, scan_path, scan_bounds.
  destruct (scan_loop_range wps (pose_x pose) (pose_y pose)
              (length wps) 0 (Z.of_nat (length wps)) (Z.of_nat (length wps))
              scan_init) as (s & Hs & _); [reflexivity | lia | lia | lia |].
  rewrite Z.leb_refl in Hs. rewrite Hs.
  destruct (min_loc s) as [m|] eqn:Hm; [|left; reflexivity].
  apply scan_loop_min_loc in Hs. rewrite Hm in Hs.
  destruct Hs as [Hs | (i & Hi & Hs)]; [discriminate|].
  injection Hs as ->. apply elem_of_py_range in Hi.
  destruct (py_getitem_valid wps i) as (w & -> & _); [lia|].
  right. exists i. split; [reflexivity | lia].
Qed.

(** C3.  The claim asks that localisation never raises and returns a valid
    index, also when the range of the windowed scan passes the end of the
    path.  On the track, a first pose at waypoint 290 is localised and
    published; the next pose update scans [range(270, 310)] and raises
    [IndexError] at index 300.  With [lastIndex = 10] the scan of
    [range(-10, 30)] returns the negative index [-5] for a car at
    waypoint 295, on which [islice] raises [ValueError]. *)
Theorem C3_windowed_scan_raises :
  (exists s1 lane,
     pose_cb (mkWaypointUpdater (Some track) None (-1) None None) (at_x 290)
       = (s1, Published lane) /\
     last_wp_id s1 = Some 290 /\
     closest_wp track (at_x 291) (last_wp_id s1) = inl IndexError /\
     snd (pose_cb s1 (at_x 291)) = Raised IndexError) /\
  closest_wp track (at_x 295) (Some 10) = inr (-5) /\
  snd (send_next_waypoints (ready track (at_x 295) (-1) (Some 10)))
    = Raised ValueError.
Proof.
  split; [|split; vm_compute; reflexivity].
  eexists _, _. split; [vm_compute; reflexivity|].
  split; [reflexivity|]. split; vm_compute; reflexivity.
Qed.

(** C7 as stated fails: with [lastIndex = 10] on the track the scan
    examines the waypoint at position 295, which is not among the
    positions [lastIndex - 20 .. lastIndex + 19], and selects it. *)
Lemma C7_counterexample :
  exists s,
    scan_path track (at_x 295) (Some 10) = (s, None) /\
    295%nat ∈ examined s /\
    ~ (10 - 20 <= Z.of_nat 295 <= 10 + 19) /\
    min_loc s = Some (-5).
Proof.
  eexists. split; [vm_compute; reflexivity|].
  split; [|split; [lia | reflexivity]].
  apply list_elem_of_lookup. exists 5%nat. reflexivity.
Qed.

(** C7, amended.  When [lastIndex] is present the scan visits the indices
    [lastIndex - 20 .. lastIndex + 19] in increasing order.  An index [i]
    with [0 <= i < N] examines the waypoint at position [i]; an index with
    [-N <= i < 0] examines the waypoint at position [N + i], counted from
    the end of the path.  Nothing is wrapped at or above [N], nor below
    [-N]: the first such index raises [IndexError] and ends the scan, so
    the waypoints examined are those of the indices from [lastIndex - 20]
    up to, and without, the lesser of [lastIndex + 20] and [N] (none when
    [lastIndex - 20 < -N]).  From [lastIndex >= 20] on no index is
    negative and these are the positions themselves. *)
Theorem C7_windowed_scan_examined (wps : list Waypoint) (pose : Pose) (l : Z) :
  exists s,
    scan_path wps pose (Some l)
      = (s, if (- Z.of_nat (length wps) <=? l - 20)
               && (l + 20 <=? Z.of_nat (length wps))
            then None else Some IndexError) /\
    examined s
      = (if - Z.of_nat (length wps) <=? l - 20
         then (fun i =>
                 Z.to_nat (if i <? 0 then Z.of_nat (length wps) + i else i))
                <$> py_range (l - 20)
                             (Z.min (l + 20) (Z.of_nat (length wps)))
         else []) /\
    (20 <= l ->
     examined s
       = Z.to_nat <$> py_range (l - 20)
                               (Z.min (l + 20) (Z.of_nat (length wps)))).
Proof.
  destruct (scan_path_windowed wps pose l) as (s & Hs & Hex).
  exists s. split; [exact Hs|]. split; [exact Hex|].
  intros Hl. rewrite Hex.
  replace (- Z.of_nat (length wps) <=? l - 20) with true
    by (symmetry; apply Z.leb_le; lia).
  apply list_fmap_ext. intros k i Hi.
  apply list_elem_of_lookup_2, elem_of_py_range in Hi.
  unfold wrap_index.
  replace (i <? 0) with false by (symmetry; apply Z.ltb_ge; lia).
  reflexivity.
Qed.

(** The amended C7 at the end of the track: with [lastIndex = 290] the
    scan examines the positions 270 to 299 and raises at index 300; the
    positions 0 to 9 are not examined. *)
Lemma windowed_scan_at_end_of_track :
  exists s,
    scan_path track (at_x 291) (Some 290) = (s, Some IndexError) /\
    examined s = Z.to_nat <$> py_range 270 300.
Proof. eexists. split; vm_compute; reflexivity. Qed.

(** C6.  In every state in which the path and the pose are present and the
    closest waypoint [m] is found, if the stop index is not [-1], is less
    than 100 ahead of [m] and is at or behind [m], nothing is published;
    with [m] a valid index ([0 <= m]) the cycle ends at the [return] of
    line 199. *)
Theorem C6_inconsistent_stop_aborts (self : WaypointUpdater)
    (wps : list Waypoint) (pose : Pose) (m : Z) :
  waypoints self = Some wps -> current_pose self = Some pose ->
  closest_wp wps pose (last_wp_id self) = inr m ->
  red_light_wp self <> -1 ->
  red_light_wp self - m < SLOWDOWN_WPS ->
  red_light_wp self <= m ->
  lane_of (snd (send_next_waypoints self)) = None /\
  (0 <= m -> snd (send_next_waypoints self) = Aborted).
Proof.
  intros Hw Hp Hc Hne Hd Hle.
  rewrite (send_next_waypoints_located self wps pose m Hw Hp Hc). cbv zeta.
  assert (Ha : is_red_light_ahead_of (red_light_wp self) m = true).
  { unfold is_red_light_ahead_of. apply andb_true_intro. split.
    - apply negb_true_iff, Z.eqb_neq. exact Hne.
    - apply Z.ltb_lt. exact Hd. }
  rewrite Ha. replace (red_light_wp self <=? m) with true
    by (symmetry; apply Z.leb_le; lia).
  simpl. destruct (Z.ltb_spec m 0); simpl; split; auto; lia.
Qed.

(** C6 on the track: closest waypoint 35, stop index 20. *)
Lemma C6_inconsistent_stop_aborts_witness :
  let self := ready track (at_x 35) 20 (Some 30) in
  (closest_wp track (at_x 35) (last_wp_id self) = inr 35 /\
   red_light_wp self <> -1 /\
   red_light_wp self - 35 < SLOWDOWN_WPS /\
   red_light_wp self <= 35) /\
  lane_of (snd (send_next_waypoints self)) = None /\
  (0 <= 35 -> snd (send_next_waypoints self) = Aborted).
Proof.
  intros self.
  assert (Hc : closest_wp track (at_x 35) (last_wp_id self) = inr 35)
    by (vm_compute; reflexivity).
  assert (Hne : red_light_wp self <> -1) by (simpl; lia).
  assert (Hd : red_light_wp self - 35 < SLOWDOWN_WPS)
    by (unfold SLOWDOWN_WPS; simpl; lia).
  assert (Hle : red_light_wp self <= 35) by (simpl; lia).
  split; [auto|].
  exact (C6_inconsistent_stop_aborts self track (at_x 35) 35
           eq_refl eq_refl Hc Hne Hd Hle).
Defined.

(** C10.  A cycle that ends at the [return] of line 199 has found the
    closest waypoint [m] and leaves the state with [last_wp_id = m]: the
    aborted cycle has moved the seed of the next scan. *)
Theorem C10_abort_updates_last_wp_id (self self' : WaypointUpdater) :
  send_next_waypoints self = (self', Aborted) ->
  exists wps pose m,
    waypoints self = Some wps /\ current_pose self = Some pose /\
    closest_wp wps pose (last_wp_id self) = inr m /\
    last_wp_id self' = Some m /\
    self' = set_last_wp_id self m.
Proof.
  intros H.
  destruct (send_next_waypoints_aborted_inv self self' H)
    as (wps & pose & m & Hw & Hp & Hc & _ & _ & _ & ->).
  exists wps, pose, m. auto 10.
Qed.

(** C10 on the track: the aborted cycle moves [last_wp_id] from 30 to
    35. *)
Lemma C10_abort_updates_last_wp_id_witness :
  let self := ready track (at_x 35) 20 (Some 30) in
  let self' := set_last_wp_id self 35 in
  send_next_waypoints self = (self', Aborted) /\
  last_wp_id self = Some 30 /\
  last_wp_id self' = Some 35 /\
  exists wps pose m,
    waypoints self = Some wps /\ current_pose self = Some pose /\
    closest_wp wps pose (last_wp_id self) = inr m /\
    last_wp_id self' = Some m /\
    self' = set_last_wp_id self m.
Proof.
  intros self self'.
  assert (H : send_next_waypoints self = (self', Aborted))
    by (vm_compute; reflexivity).
  split; [exact H|]. split; [reflexivity|]. split; [reflexivity|].
  exact (C10_abort_updates_last_wp_id self self' H).
Defined.

(** ** The stored path *)


Lemma place_alter (v : Q) (r : nat) (store : list Waypoint) :
  place <$> alter (with_linear_x v) r store = place <$> store.
Proof.
  rewrite (list_fmap_alter place (with_linear_x v) id).
  - apply list_alter_id. reflexivity.
  - apply Forall_forall. intros w _. reflexivity.
Qed.

Lemma speed_loop_place (ahead : bool) (red m : Z) (refs : list nat)
    (offs : list Z) : forall store,
  place <$> fst (speed_loop ahead red m refs offs store) = place <$> store.
Proof.
  induction offs as [|i offs IH]; intros store; simpl; [reflexivity|].
  unfold set_waypoint_velocity.
  destruct (py_getitem refs i) as [e|r]; simpl; [reflexivity|].
  rewrite IH. apply place_alter.
Qed.

(** A cycle never replaces the stored path by another one: it keeps the
    path absent, or keeps its waypoints up to their speeds. *)
Lemma send_next_waypoints_path (self : WaypointUpdater) :
  match waypoints self with
  | None => waypoints (fst (send_next_waypoints self)) = None
  | Some wps =>
    exists stored,
      waypoints (fst (send_next_waypoints self)) = Some stored /\
      place <$> stored = place <$> wps /\
      (current_pose self = None -> stored = wps)
  end.
Proof.
  destruct (waypoints self) as [wps|] eqn:Hw;
    [|unfold send_next_waypoints; rewrite Hw; exact Hw].
  destruct (current_pose self) as [pose|] eqn:Hp;
    [|unfold send_next_waypoints; rewrite Hw, Hp; simpl; eauto].
  destruct (closest_wp wps pose (last_wp_id self)) as [e|m] eqn:Hc;
    [unfold send_next_waypoints; rewrite Hw, Hp, Hc; simpl;
     exists wps; repeat split; auto; discriminate|].
  rewrite (send_next_waypoints_located self wps pose m Hw Hp Hc). cbv zeta.
  destruct (m <? 0);
    [simpl; exists wps; repeat split; auto; discriminate|].
  destruct (_ && _);
    [simpl; exists wps; repeat split; auto; discriminate|].
  match goal with
  | |- context [speed_loop ?a ?r ?m' ?refs ?offs ?st] =>
    pose proof (speed_loop_place a r m' refs offs st) as Hplace;
    destruct (speed_loop a r m' refs offs st) as [store [e|]]
  end; simpl in *; exists store; repeat split; auto; discriminate.
Qed.

(** C8.  The first delivery of a path stores it: the stored path has the
    delivered waypoints, and is the delivered list itself when no pose has
    arrived yet (with a pose the same callback runs a cycle, which writes
    speeds only).  Every later delivery is a no-op on the whole state. *)
Theorem C8_first_writer_wins (self : WaypointUpdater) (first : list Waypoint)
    (later : list (list Waypoint)) :
  waypoints self = None ->
  let s1 := fst (waypoints_cb self first) in
  (exists stored,
     waypoints s1 = Some stored /\
     place <$> stored = place <$> first /\
     (current_pose self = None -> stored = first)) /\
  (forall lane, waypoints_cb s1 lane = (s1, Skipped)) /\
  fold_left (fun s lane => fst (waypoints_cb s lane)) later s1 = s1.
Proof.
  intros Hnone s1.
  assert (Hstored : exists stored,
             waypoints s1 = Some stored /\
             place <$> stored = place <$> first /\
             (current_pose self = None -> stored = first)).
  { unfold s1, waypoints_cb. rewrite Hnone.
    exact (send_next_waypoints_path (set_waypoints self first)). }
  assert (Hskip : forall lane, waypoints_cb s1 lane = (s1, Skipped)).
  { intros lane. destruct Hstored as (stored & Hs & _).
    unfold waypoints_cb. rewrite Hs. reflexivity. }
  split; [exact Hstored|]. split; [exact Hskip|].
  induction later as [|lane later IH]; simpl; [reflexivity|].
  rewrite Hskip. exact IH.
Qed.

(** C8 from the initial state: one delivery, then two more. *)
Lemma C8_first_writer_wins_witness :
  let s1 := fst (waypoints_cb init (line_path 3 5)) in
  waypoints init = None /\
  ((exists stored,
      waypoints s1 = Some stored /\
      place <$> stored = place <$> line_path 3 5 /\
      (current_pose init = None -> stored = line_path 3 5)) /\
   (forall lane, waypoints_cb s1 lane = (s1, Skipped)) /\
   fold_left (fun s lane => fst (waypoints_cb s lane))
             [line_path 2 7; line_path 4 1] s1 = s1).
Proof.
  intros s1. split; [reflexivity|].
  exact (C8_first_writer_wins init (line_path 3 5)
           [line_path 2 7; line_path 4 1] eq_refl).
Defined.

(** ** The braking ramp *)


Lemma new_velocity_no_light (red m i : Z) :
  new_velocity false red m i = MAX_SPEED_METERS_PER_SEC.
Proof. reflexivity. Qed.

Lemma new_velocity_after (ahead : bool) (red m i : Z) :
  red < i -> new_velocity ahead red m i = MAX_SPEED_METERS_PER_SEC.
Proof.
  intros H. unfold new_velocity.
  replace (red <? i) with true by (symmetry; apply Z.ltb_lt; lia).
  rewrite orb_true_r. reflexivity.
Qed.

Lemma new_velocity_before (red m i : Z) :
  i <= red -> new_velocity true red m i = ramp (red - m - i).
Proof.
  intros H. unfold new_velocity, ramp, slope.
  replace (red <? i) with false by (symmetry; apply Z.ltb_ge; lia).
  reflexivity.
Qed.

Lemma py_max0_nonneg (v : Q) : (0 <= py_max0 v)%Q.
Proof.
  unfold py_max0. destruct (Qle_bool v 0) eqn:E; [apply Qle_refl|].
  destruct (Qlt_le_dec 0 v) as [H | H]; [apply Qlt_le_weak; exact H|].
  apply Qle_bool_iff in H. congruence.
Qed.

Lemma py_max0_mono (u v : Q) : (u <= v)%Q -> (py_max0 u <= py_max0 v)%Q.
Proof.
  intros H. unfold py_max0 at 1.
  destruct (Qle_bool u 0) eqn:E; [apply py_max0_nonneg|].
  unfold py_max0. destruct (Qle_bool v 0) eqn:E'; [|exact H].
  apply Qle_bool_iff in E'.
  assert (Hu : (u <= 0)%Q) by (eapply Qle_trans; eauto).
  apply Qle_bool_iff in Hu. congruence.
Qed.

Lemma slope_pos : (0 < slope)%Q.
Proof. reflexivity. Qed.

Lemma max_speed_pos : (0 < MAX_SPEED_METERS_PER_SEC)%Q.
Proof. reflexivity. Qed.

Lemma ramp_hard_stop (r : Z) : r < 5 -> ramp r = 0%Q.
Proof.
  intros H. unfold ramp.
  replace (r <? 5) with true by (symmetry; apply Z.ltb_lt; lia).
  reflexivity.
Qed.

Lemma ramp_nonneg (r : Z) : (0 <= ramp r)%Q.
Proof. apply py_max0_nonneg. Qed.

Lemma ramp_le_max (r : Z) :
  r <= SLOWDOWN_WPS -> (ramp r <= MAX_SPEED_METERS_PER_SEC)%Q.
Proof.
  intros H. unfold ramp.
  assert (Hmax : MAX_SPEED_METERS_PER_SEC = py_max0 MAX_SPEED_METERS_PER_SEC)
    by reflexivity.
  rewrite Hmax at 3. apply py_max0_mono.
  destruct (r <? 5); [apply Qlt_le_weak, max_speed_pos|].
  fold slope. pose proof slope_pos as Hs.
  assert (Hr : (inject_Z 0 <= inject_Z (SLOWDOWN_WPS - r))%Q)
    by (rewrite <- Zle_Qle; lia).
  change (inject_Z 0) with 0%Q in Hr.
  revert Hs Hr.
  generalize slope MAX_SPEED_METERS_PER_SEC (inject_Z (SLOWDOWN_WPS - r)).
  intros. nra.
Qed.

Lemma ramp_mono (r1 r2 : Z) : r1 <= r2 -> (ramp r1 <= ramp r2)%Q.
Proof.
  intros H. destruct (Z.lt_ge_cases r1 5) as [H1 | H1].
  - rewrite (ramp_hard_stop r1 H1). apply ramp_nonneg.
  - unfold ramp.
    replace (r1 <? 5) with false by (symmetry; apply Z.ltb_ge; lia).
    replace (r2 <? 5) with false by (symmetry; apply Z.ltb_ge; lia).
    apply py_max0_mono. fold slope. pose proof slope_pos as Hs.
    assert (Hr : (inject_Z (SLOWDOWN_WPS - r2)
                  <= inject_Z (SLOWDOWN_WPS - r1))%Q)
      by (rewrite <- Zle_Qle; lia).
    revert Hs Hr.
    generalize slope MAX_SPEED_METERS_PER_SEC
               (inject_Z (SLOWDOWN_WPS - r1)) (inject_Z (SLOWDOWN_WPS - r2)).
    intros. nra.
Qed.

Lemma is_red_light_ahead_of_true (red m : Z) :
  red <> -1 -> red - m < 100 -> is_red_light_ahead_of red m = true.
Proof.
  intros Hne Hd. unfold is_red_light_ahead_of. apply andb_true_intro. split.
  - apply negb_true_iff, Z.eqb_neq. exact Hne.
  - apply Z.ltb_lt. exact Hd.
Qed.

(** C2 as stated fails: with the closest waypoint 25 and the stop index
    29 the stop is actionable and its relative offset is 4, yet the
    iteration of offset 4 passes the velocity 0, not the maximum speed,
    and the published window carries 0 at offset 4. *)
Lemma C2_counterexample :
  is_red_light_ahead_of 29 25 = true /\
  29 - 25 <= 4 /\
  new_velocity (is_red_light_ahead_of 29 25) 29 25 4 = 0%Q /\
  ~ (new_velocity (is_red_light_ahead_of 29 25) 29 25 4
     == MAX_SPEED_METERS_PER_SEC)%Q /\
  exists self' lane,
    send_next_waypoints (ready track (at_x 25) 29 None)
      = (self', Published lane) /\
    get_waypoint_velocity <$> lane !! 4%nat = Some 0%Q.
Proof.
  split; [reflexivity|]. split; [lia|]. split; [reflexivity|].
  split; [vm_compute; discriminate|].
  eexists _, _. split; vm_compute; reflexivity.
Qed.

(** The example of the specification on the track: closest waypoint 25,
    stop index 29.  Offsets 0 to 4 of the published window carry 0 and
    offsets 30 to 197 carry the maximum speed. *)
Lemma example_closest_25_stop_29 :
  exists self' lane,
    send_next_waypoints (ready track (at_x 25) 29 None)
      = (self', Published lane) /\
    get_waypoint_velocity <$> take 5 lane = replicate 5 0%Q /\
    get_waypoint_velocity <$> drop 30 (take 198 lane)
      = replicate 168 MAX_SPEED_METERS_PER_SEC.
Proof.
  eexists _, _. split; [vm_compute; reflexivity|].
  split; vm_compute; reflexivity.
Qed.

(** * Further properties of the code *)

(** ** Squares *)

Lemma Qsquare (a : Q) : (a ^ 2 == a * a)%Q.
Proof. simpl. reflexivity. Qed.

Lemma square_nonneg (u : Q) : (0 <= u * u)%Q.
Proof. nra. Qed.

(** ** What a cycle leaves alone *)

Lemma send_next_waypoints_fields (self : WaypointUpdater) :
  current_pose (fst (send_next_waypoints self)) = current_pose self /\
  red_light_wp (fst (send_next_waypoints self)) = red_light_wp self /\
  upcoming_light_state (fst (send_next_waypoints self))
    = upcoming_light_state self.
Proof.
  unfold send_next_waypoints.
  destruct (waypoints self) as [wps|]; [|auto].
  destruct (current_pose self) as [pose|] eqn:Hp; [|auto].
  destruct (closest_wp wps pose (last_wp_id self)) as [e|m]; [auto|].
  destruct (m <? 0); [simpl; auto|].
  destruct (_ && _); [simpl; auto|].
  destruct (speed_loop _ _ _ _ _ _) as [store [e|]]; simpl; auto.
Qed.

(** X4.  A cycle, however it ends, changes neither the pose, nor the stop
    index, nor the light state, and it keeps the stored path up to the
    speeds of its waypoints: same length, same positions, in the same
    order. *)
Theorem X4_cycle_frame (self : WaypointUpdater) :
  let self' := fst (send_next_waypoints self) in
  current_pose self' = current_pose self /\
  red_light_wp self' = red_light_wp self /\
  upcoming_light_state self' = upcoming_light_state self /\
  match waypoints self with
  | None => waypoints self' = None
  | Some wps =>
    exists stored, waypoints self' = Some stored /\
                   place <$> stored = place <$> wps
  end.
Proof.
  intros self'. unfold self'.
  destruct (send_next_waypoints_fields self) as (Hp & Hr & Hl).
  repeat split; auto.
  pose proof (send_next_waypoints_path self) as Hpath.
  destruct (waypoints self) as [wps|]; [|exact Hpath].
  destruct Hpath as (stored & Hs & Hplace & _). eauto.
Qed.

(** X5.  The light state is not read by a cycle: with any other light
    state the cycle has the same outcome and leaves the same state, up to
    the light state itself. *)
Theorem X5_light_state_unused (self : WaypointUpdater) (state : Z) :
  send_next_waypoints (traffic_state_cb self state)
    = (traffic_state_cb (fst (send_next_waypoints self)) state,
       snd (send_next_waypoints self)).
Proof.
  destruct self as [[wps|] [pose|] red last light]; try reflexivity.
  unfold send_next_waypoints, traffic_state_cb, set_upcoming_light_state.
  simpl.
  destruct (closest_wp wps pose last) as [e|m]; [reflexivity|].
  destruct (m <? 0); [reflexivity|].
  destruct (_ && _); [reflexivity|].
  destruct (speed_loop _ _ _ _ _ _) as [store [e|]]; reflexivity.
Qed.

(** ** The node over sequences of messages *)

Lemma run_cons (e : event) (evs : list event) (self : WaypointUpdater) :
  run (e :: evs) self = run evs (fst (dispatch self e)).
Proof. reflexivity. Qed.

Lemma run_app (evs1 evs2 : list event) (self : WaypointUpdater) :
  run (evs1 ++ evs2) self = run evs2 (run evs1 self).
Proof. unfold run. apply fold_left_app. Qed.

(** A callback keeps a stored path up to the speeds. *)
Lemma dispatch_path_kept (self : WaypointUpdater) (e : event)
    (wps : list Waypoint) :
  waypoints self = Some wps ->
  exists stored, waypoints (fst (dispatch self e)) = Some stored /\
                 place <$> stored = place <$> wps.
Proof.
  intros Hw. destruct e as [msg | lane | idx | state]; simpl.
  - pose proof (send_next_waypoints_path (set_current_pose self msg)) as H.
    unfold pose_cb. simpl in H. rewrite Hw in H.
    destruct H as (stored & Hs & Hp & _). eauto.
  - unfold waypoints_cb. rewrite Hw. simpl. eauto.
  - pose proof (send_next_waypoints_path (set_red_light_wp self idx)) as H.
    unfold traffic_cb. simpl in H. rewrite Hw in H.
    destruct H as (stored & Hs & Hp & _). eauto.
  - eauto.
Qed.

Lemma run_path_kept (evs : list event) : forall self wps,
  waypoints self = Some wps ->
  exists stored, waypoints (run evs self) = Some stored /\
                 place <$> stored = place <$> wps.
Proof.
  induction evs as [|e evs IH]; intros self wps Hw; [simpl; eauto|].
  rewrite run_cons.
  destruct (dispatch_path_kept self e wps Hw) as (w1 & Hw1 & Hp1).
  destruct (IH _ w1 Hw1) as (stored & Hs & Hp).
  exists stored. split; [exact Hs|]. congruence.
Qed.

(** Without a stored path, a callback other than [waypoints_cb] stores
    none and publishes nothing. *)
Lemma dispatch_path_absent (self : WaypointUpdater) (e : event) :
  waypoints self = None -> is_waypoints e = false ->
  waypoints (fst (dispatch self e)) = None /\
  emitted (snd (dispatch self e)) = None.
Proof.
  intros Hw He. destruct e as [msg | lane | idx | state];
    try discriminate; simpl.
  - unfold pose_cb, send_next_waypoints. simpl. rewrite Hw. auto.
  - unfold traffic_cb, send_next_waypoints. simpl. rewrite Hw. auto.
  - auto.
Qed.

(** Without a pose, a callback other than [pose_cb] stores none and
    publishes nothing. *)
Lemma dispatch_pose_absent (self : WaypointUpdater) (e : event) :
  current_pose self = None -> is_pose e = false ->
  current_pose (fst (dispatch self e)) = None /\
  emitted (snd (dispatch self e)) = None.
Proof.
  intros Hp He. destruct e as [msg | lane | idx | state];
    try discriminate; simpl.
  - unfold waypoints_cb. destruct (waypoints self); [auto|].
    unfold send_next_waypoints. simpl. rewrite Hp. auto.
  - unfold traffic_cb, send_next_waypoints. simpl. rewrite Hp.
    destruct (waypoints self); auto.
  - auto.
Qed.

(** X6.  Whatever other messages arrive before, between and after, the
    stored path is the first path delivered, up to the speeds of its
    waypoints: later deliveries and all other callbacks keep its length
    and the positions of its waypoints. *)
Theorem X6_first_delivery_wins (evs1 evs2 : list event)
    (lane : list Waypoint) (self : WaypointUpdater) :
  waypoints self = None ->
  forallb (fun e => negb (is_waypoints e)) evs1 = true ->
  waypoints (run evs1 self) = None /\
  exists stored,
    waypoints (run (evs1 ++ EWaypoints lane :: evs2) self) = Some stored /\
    place <$> stored = place <$> lane.
Proof.
  intros Hw Hno.
  assert (Hbefore : waypoints (run evs1 self) = None).
  { revert self Hw. induction evs1 as [|e evs1 IH]; intros self Hw; [exact Hw|].
    simpl in Hno. apply andb_prop in Hno. destruct Hno as [He Hno].
    apply negb_true_iff in He. rewrite run_cons. apply IH; [exact Hno|].
    apply dispatch_path_absent; assumption. }
  split; [exact Hbefore|].
  rewrite run_app, run_cons.
  assert (Hfirst : exists w1,
             waypoints (fst (dispatch (run evs1 self) (EWaypoints lane)))
               = Some w1 /\ place <$> w1 = place <$> lane).
  { simpl. unfold waypoints_cb. rewrite Hbefore.
    pose proof (send_next_waypoints_path
                  (set_waypoints (run evs1 self) lane)) as H.
    simpl in H. destruct H as (w1 & Hs & Hp & _). eauto. }
  destruct Hfirst as (w1 & Hw1 & Hp1).
  destruct (run_path_kept evs2 _ w1 Hw1) as (stored & Hs & Hp).
  exists stored. split; [exact Hs|]. congruence.
Qed.

(** X6 from the initial state: a pose, a first path, a stop index, a
    second path and another pose. *)
Lemma X6_first_delivery_wins_witness :
  (waypoints init = None /\
   forallb (fun e => negb (is_waypoints e)) [EPose (at_x 1)] = true) /\
  waypoints (run [EPose (at_x 1)] init) = None /\
  exists stored,
    waypoints (run ([EPose (at_x 1)]
                    ++ EWaypoints (line_path 3 5)
                       :: [ETraffic 2; EWaypoints (line_path 4 1);
                           EPose (at_x 2)]) init) = Some stored /\
    place <$> stored = place <$> line_path 3 5.
Proof.
  split; [split; reflexivity|].
  exact (X6_first_delivery_wins [EPose (at_x 1)]
           [ETraffic 2; EWaypoints (line_path 4 1); EPose (at_x 2)]
           (line_path 3 5) init eq_refl eq_refl).
Defined.

(** X7.  Nothing is published as long as no path has been delivered, and
    nothing is published as long as no pose has arrived. *)
Theorem X7_nothing_published_before_ready (evs : list event)
    (self : WaypointUpdater) :
  (waypoints self = None /\
   forallb (fun e => negb (is_waypoints e)) evs = true) \/
  (current_pose self = None /\
   forallb (fun e => negb (is_pose e)) evs = true) ->
  published evs self = [].
Proof.
  revert self. induction evs as [|e evs IH]; intros self H; [reflexivity|].
  simpl.
  assert (Hstep : emitted (snd (dispatch self e)) = None /\
            ((waypoints (fst (dispatch self e)) = None /\
              forallb (fun e => negb (is_waypoints e)) evs = true) \/
             (current_pose (fst (dispatch self e)) = None /\
              forallb (fun e => negb (is_pose e)) evs = true))).
  { destruct H as [[Hw Hno] | [Hp Hno]];
      simpl in Hno; apply andb_prop in Hno; destruct Hno as [He Hno];
      apply negb_true_iff in He.
    - destruct (dispatch_path_absent self e Hw He). auto.
    - destruct (dispatch_pose_absent self e Hp He). auto. }
  destruct Hstep as [-> Hnext]. apply IH. exact Hnext.
Qed.

(** X7 from the initial state, with a path and stop indices but no
    pose. *)
Lemma X7_nothing_published_before_ready_witness :
  (current_pose init = None /\
   forallb (fun e => negb (is_pose e))
           [EWaypoints track; ETraffic 40; ETrafficState 0; ETraffic (-1)]
     = true) /\
  published [EWaypoints track; ETraffic 40; ETrafficState 0; ETraffic (-1)]
            init = [].
Proof.
  split; [split; reflexivity|].
  apply X7_nothing_published_before_ready. right. split; reflexivity.
Defined.

(** ** The seed of the windowed scan *)

Lemma place_length (l1 l2 : list Waypoint) :
  place <$> l1 = place <$> l2 -> length l1 = length l2.
Proof.
  intros H. apply (f_equal length) in H. rewrite !length_fmap in H. exact H.
Qed.

Lemma send_next_waypoints_last_ok (self : WaypointUpdater) :
  last_wp_id_ok self -> last_wp_id_ok (fst (send_next_waypoints self)).
Proof.
  intros Hok.
  destruct (waypoints self) as [wps|] eqn:Hw;
    [|unfold send_next_waypoints; rewrite Hw; exact Hok].
  destruct (current_pose self) as [pose|] eqn:Hp;
    [|unfold send_next_waypoints; rewrite Hw, Hp; exact Hok].
  destruct (closest_wp wps pose (last_wp_id self)) as [e|m] eqn:Hc;
    [unfold send_next_waypoints; rewrite Hw, Hp, Hc; exact Hok|].
  pose proof (closest_wp_in_range _ _ _ _ Hc) as Hm.
  rewrite (send_next_waypoints_located self wps pose m Hw Hp Hc). cbv zeta.
  destruct (m <? 0);
    [unfold last_wp_id_ok; simpl; exists wps; auto|].
  destruct (_ && _);
    [unfold last_wp_id_ok; simpl; exists wps; auto|].
  match goal with
  | |- context [speed_loop ?a ?r ?m' ?refs ?offs ?st] =>
    pose proof (speed_loop_place a r m' refs offs st) as Hplace;
    destruct (speed_loop a r m' refs offs st) as [store [e|]]
  end; simpl in Hplace; apply place_length in Hplace;
    unfold last_wp_id_ok; simpl; exists store; rewrite Hplace; auto.
Qed.

Lemma dispatch_last_ok (self : WaypointUpdater) (e : event) :
  last_wp_id_ok self -> last_wp_id_ok (fst (dispatch self e)).
Proof.
  intros Hok. destruct e as [msg | lane | idx | state]; simpl.
  - apply send_next_waypoints_last_ok. exact Hok.
  - unfold waypoints_cb. destruct (waypoints self) as [wps|] eqn:Hw;
      [exact Hok|].
    apply send_next_waypoints_last_ok.
    unfold last_wp_id_ok in *. simpl.
    destruct (last_wp_id self) as [l|]; [|exact I].
    destruct Hok as (wps & Hwps & _). congruence.
  - apply send_next_waypoints_last_ok. exact Hok.
  - exact Hok.
Qed.

(** X8.  After any sequence of messages from the initial state,
    [last_wp_id] is unset or is an index [l] with [-N <= l < N] of the
    stored path of length [N]: it may be negative, and it is never an
    index that raises on the path. *)
Theorem X8_last_wp_id_indexes_path (evs : list event) :
  match last_wp_id (run evs init) with
  | None => True
  | Some l =>
    exists wps, waypoints (run evs init) = Some wps /\
                - Z.of_nat (length wps) <= l < Z.of_nat (length wps)
  end.
Proof.
  change (last_wp_id_ok (run evs init)).
  assert (H : forall self, last_wp_id_ok self -> last_wp_id_ok (run evs self)).
  { induction evs as [|e evs IH]; intros self Hok; [exact Hok|].
    rewrite run_cons. apply IH, dispatch_last_ok, Hok. }
  apply H. exact I.
Qed.

(** ** The end of the path *)

(** With [last_wp_id = l] and the range of the scan leaving [-N, N),
    every callback leaves the path and [last_wp_id] as they are and
    publishes nothing. *)
Lemma dispatch_stuck (self : WaypointUpdater) (e : event)
    (wps : list Waypoint) (l : Z) :
  waypoints self = Some wps -> last_wp_id self = Some l ->
  Z.of_nat (length wps) < l + 20 \/ l - 20 < - Z.of_nat (length wps) ->
  waypoints (fst (dispatch self e)) = Some wps /\
  last_wp_id (fst (dispatch self e)) = Some l /\
  emitted (snd (dispatch self e)) = None.
Proof.
  intros Hw Hl Hout.
  assert (Hsend : forall s, waypoints s = Some wps -> last_wp_id s = Some l ->
            send_next_waypoints s = (s, NotReady) \/
            send_next_waypoints s = (s, Raised IndexError)).
  { intros s Hws Hls. unfold send_next_waypoints. rewrite Hws.
    destruct (current_pose s) as [pose|]; [|auto].
    rewrite Hls, (closest_wp_windowed_raises wps pose l Hout). auto. }
  destruct e as [msg | lane | idx | state]; simpl.
  - unfold pose_cb.
    destruct (Hsend (set_current_pose self msg) Hw Hl) as [-> | ->]; auto.
  - unfold waypoints_cb. rewrite Hw. auto.
  - unfold traffic_cb.
    destruct (Hsend (set_red_light_wp self idx) Hw Hl) as [-> | ->]; auto.
  - auto.
Qed.

(** X9.  Once [last_wp_id] is within 19 waypoints of the end of the
    stored path ([last_wp_id + 20 > N]), or below [20 - N], the node never
    publishes again: whatever messages arrive, every cycle raises in the
    scan, the stored path and [last_wp_id] stay as they are and no window
    is published. *)
Theorem X9_stuck_at_end_of_path (evs : list event) (self : WaypointUpdater)
    (wps : list Waypoint) (l : Z) :
  waypoints self = Some wps -> last_wp_id self = Some l ->
  Z.of_nat (length wps) < l + 20 \/ l - 20 < - Z.of_nat (length wps) ->
  published evs self = [] /\
  waypoints (run evs self) = Some wps /\
  last_wp_id (run evs self) = Some l.
Proof.
  intros Hw Hl Hout. revert self Hw Hl.
  induction evs as [|e evs IH]; intros self Hw Hl; [auto|].
  destruct (dispatch_stuck self e wps l Hw Hl Hout) as (Hw' & Hl' & Hem).
  rewrite run_cons. cbn [published]. cbv zeta. rewrite Hem.
  apply IH; assumption.
Qed.

(** X9 on the track: a first pose at waypoint 290 is localised and
    published; after it no pose, stop index or path is answered. *)
Lemma X9_stuck_at_end_of_path_witness :
  let self := fst (pose_cb (mkWaypointUpdater (Some track) None (-1) None None)
                           (at_x 290)) in
  let evs := [EPose (at_x 291); ETraffic (-1); EWaypoints track;
              EPose (at_x 280)] in
  (exists wps,
     waypoints self = Some wps /\ last_wp_id self = Some 290 /\
     Z.of_nat (length wps) < 290 + 20 /\
     published evs self = [] /\
     waypoints (run evs self) = Some wps /\
     last_wp_id (run evs self) = Some 290).
Proof.
  intros self evs.
  destruct (waypoints self) as [wps|] eqn:Hw; [|vm_compute in Hw; discriminate].
  assert (Hl : last_wp_id self = Some 290) by (vm_compute; reflexivity).
  assert (Hlen : Z.of_nat (length wps) < 290 + 20).
  { assert (Hlen' : option_map (fun w => Z.of_nat (length w)) (waypoints self)
                    = Some 300) by (vm_compute; reflexivity).
    rewrite Hw in Hlen'. simpl in Hlen'. injection Hlen' as ->. lia. }
  exists wps. split; [reflexivity|]. split; [exact Hl|]. split; [exact Hlen|].
  exact (X9_stuck_at_end_of_path evs self wps 290 Hw Hl (or_introl Hlen)).
Defined.

(** ** The published window in general *)

(** X10.  Every published window is the circular slice of the stored path
    that starts at the closest waypoint [m]: it has 199 elements and its
    element [i] is the waypoint of the path at position [(m + i) mod N],
    up to the speed; [m] is a position of the path and is the new
    [last_wp_id]. *)
Theorem X10_window_is_circular_slice (self self' : WaypointUpdater)
    (lane : list Waypoint) :
  send_next_waypoints self = (self', Published lane) ->
  exists wps m,
    waypoints self = Some wps /\
    last_wp_id self' = Some m /\
    0 <= m < Z.of_nat (length wps) /\
    length lane = 199%nat /\
    forall i, 0 <= i < 199 ->
      place <$> lane !! Z.to_nat i
        = place <$> wps !! window_pos (length wps) m i.
Proof.
  intros H.
  destruct (send_next_waypoints_published_inv _ _ _ H)
    as (wps & pose & m & Hw & Hp & Hc & Hm & Hgo).
  pose proof (closest_wp_in_range _ _ _ _ Hc) as Hrange.
  destruct (send_next_waypoints_publishes self wps pose m Hw Hp Hc Hm Hgo)
    as (store & Hsend & _ & Hlook & Hlen & Hderef).
  rewrite H in Hsend. injection Hsend as -> ->.
  exists wps, m. repeat split; auto; try lia.
  intros i Hi. rewrite Hderef by lia. rewrite Z2Nat.id by lia.
  rewrite Hlook. unfold window_pos.
  rewrite <- option_fmap_compose. apply option_fmap_ext.
  intros w. apply write_at_fold_place.
Qed.

(** X10 on the track, the closest waypoint 250 of 300: element 60 of the
    window is waypoint 10. *)
Lemma X10_window_is_circular_slice_witness :
  exists self' lane,
    send_next_waypoints (ready track (at_x 250) (-1) None)
      = (self', Published lane) /\
    window_pos (length track) 250 60 = 10%nat /\
    exists wps m,
      waypoints (ready track (at_x 250) (-1) None) = Some wps /\
      last_wp_id self' = Some m /\
      0 <= m < Z.of_nat (length wps) /\
      length lane = 199%nat /\
      forall i, 0 <= i < 199 ->
        place <$> lane !! Z.to_nat i
          = place <$> wps !! window_pos (length wps) m i.
Proof.
  eexists _, _.
  assert (H : send_next_waypoints (ready track (at_x 250) (-1) None)
              = (fst (send_next_waypoints (ready track (at_x 250) (-1) None)),
                 Published
                   (default [] (lane_of (snd (send_next_waypoints
                      (ready track (at_x 250) (-1) None)))))))
    by (vm_compute; reflexivity).
  split; [exact H|]. split; [vm_compute; reflexivity|].
  exact (X10_window_is_circular_slice _ _ _ H).
Defined.

Lemma is_red_light_ahead_of_false (red m : Z) :
  red = -1 \/ 100 <= red - m -> is_red_light_ahead_of red m = false.
Proof.
  intros [-> | H]; unfold is_red_light_ahead_of; [reflexivity|].
  replace (red - m <? 100) with false by (symmetry; apply Z.ltb_ge; lia).
  apply andb_false_r.
Qed.

Lemma window_pos_lt (n : nat) (m i : Z) :
  (0 < n)%nat -> (window_pos n m i < n)%nat.
Proof.
  intros Hn. unfold window_pos.
  pose proof (Z.mod_pos_bound (m + i) (Z.of_nat n) ltac:(lia)). lia.
Qed.

(** X11.  Without an actionable stop (the stop index is [-1], or 100 or
    more waypoints ahead of the closest waypoint), on a path of at least
    199 waypoints the cycle publishes the maximum speed at the offsets 0
    to 197 of the window, and its last element, at offset 198, is the
    stored waypoint as it was, with the speed it had. *)
Theorem X11_no_stop_speeds (self : WaypointUpdater) (wps : list Waypoint)
    (pose : Pose) (m : Z) :
  waypoints self = Some wps -> current_pose self = Some pose ->
  closest_wp wps pose (last_wp_id self) = inr m ->
  0 <= m ->
  red_light_wp self = -1 \/ 100 <= red_light_wp self - m ->
  (199 <= length wps)%nat ->
  exists self' lane,
    send_next_waypoints self = (self', Published lane) /\
    (forall i, 0 <= i < 198 ->
       get_waypoint_velocity <$> lane !! Z.to_nat i
         = Some MAX_SPEED_METERS_PER_SEC) /\
    lane !! 198%nat = wps !! window_pos (length wps) m 198 /\
    is_Some (wps !! window_pos (length wps) m 198).
Proof.
  intros Hw Hp Hc Hm Hred Hn.
  pose proof (is_red_light_ahead_of_false _ _ Hred) as Ha.
  destruct (send_next_waypoints_speeds self wps pose m Hw Hp Hc Hm)
    as (self' & lane & Hsend & _ & Hsp & Hlast);
    [rewrite Ha; reflexivity | exact Hn |].
  exists self', lane. split; [exact Hsend|]. split; [|split].
  - intros i Hi. rewrite Hsp by lia. rewrite Ha.
    destruct (lookup_lt_is_Some_2 wps (window_pos (length wps) m i))
      as [w ->]; [apply window_pos_lt; lia | reflexivity].
  - exact Hlast.
  - apply lookup_lt_is_Some_2, window_pos_lt. lia.
Qed.

(** X11 on the track with the stop index 150, 100 waypoints ahead of the
    closest waypoint 50. *)
Lemma X11_no_stop_speeds_witness :
  let self := ready track (at_x 50) 150 None in
  (closest_wp track (at_x 50) (last_wp_id self) = inr 50 /\
   0 <= 50 /\
   (red_light_wp self = -1 \/ 100 <= red_light_wp self - 50) /\
   (199 <= length track)%nat) /\
  exists self' lane,
    send_next_waypoints self = (self', Published lane) /\
    (forall i, 0 <= i < 198 ->
       get_waypoint_velocity <$> lane !! Z.to_nat i
         = Some MAX_SPEED_METERS_PER_SEC) /\
    lane !! 198%nat = track !! window_pos (length track) 50 198 /\
    is_Some (track !! window_pos (length track) 50 198).
Proof.
  intros self.
  assert (Hc : closest_wp track (at_x 50) (last_wp_id self) = inr 50)
    by (vm_compute; reflexivity).
  assert (Hm : 0 <= 50) by lia.
  assert (Hred : red_light_wp self = -1 \/ 100 <= red_light_wp self - 50)
    by (right; simpl; lia).
  assert (Hn : (199 <= length track)%nat) by (vm_compute; lia).
  split; [auto|].
  exact (X11_no_stop_speeds self track (at_x 50) 50 eq_refl eq_refl
           Hc Hm Hred Hn).
Defined.

(** When every iteration passes the same velocity [c], an object that some
    iteration refers to ends with the speed [c]. *)
Lemma write_at_fold_const (ahead : bool) (red m : Z) (refs : list nat)
    (p : nat) (c : Q) (offs : list Z) :
  (forall i, i ∈ offs -> new_velocity ahead red m i = c) ->
  forall w,
    linear_x w = c \/ (exists j, j ∈ offs /\ refs !! Z.to_nat j = Some p) ->
    linear_x (fold_left (write_at ahead red m refs p) offs w) = c.
Proof.
  induction offs as [|i offs IH]; intros Hc w Hw.
  - destruct Hw as [Hw | (j & Hj & _)]; [exact Hw|].
    apply elem_of_nil in Hj. contradiction.
  - simpl. apply IH; [intros k Hk; apply Hc; right; exact Hk|].
    unfold write_at.
    destruct (decide (refs !! Z.to_nat i = Some p)) as [Hhit | Hmiss].
    + left. simpl. apply Hc. left.
    + destruct Hw as [Hw | (j & Hj & Hhit)]; [left; exact Hw|].
      apply elem_of_cons in Hj. destruct Hj as [-> | Hj]; [contradiction|].
      right. exists j. auto.
Qed.

(** X12.  Without an actionable stop, on a path shorter than the window
    (at most 198 waypoints) every element of the published window has the
    maximum speed, the last one included: the window laps the path, and
    its last element is an object that an earlier offset has written. *)
Theorem X12_no_stop_short_path (self : WaypointUpdater) (wps : list Waypoint)
    (pose : Pose) (m : Z) :
  waypoints self = Some wps -> current_pose self = Some pose ->
  closest_wp wps pose (last_wp_id self) = inr m ->
  0 <= m ->
  red_light_wp self = -1 \/ 100 <= red_light_wp self - m ->
  (length wps <= 198)%nat ->
  exists self' lane,
    send_next_waypoints self = (self', Published lane) /\
    length lane = 199%nat /\
    forall i, 0 <= i < 199 ->
      get_waypoint_velocity <$> lane !! Z.to_nat i
        = Some MAX_SPEED_METERS_PER_SEC.
Proof.
  intros Hw Hp Hc Hm Hred Hn.
  pose proof (is_red_light_ahead_of_false _ _ Hred) as Ha.
  pose proof (closest_wp_in_range _ _ _ _ Hc) as Hrange.
  destruct (send_next_waypoints_publishes self wps pose m Hw Hp Hc Hm)
    as (store & Hsend & _ & Hlook & Hlen & Hderef);
    [rewrite Ha; reflexivity|].
  eexists _, _. split; [exact Hsend|]. split; [exact Hlen|].
  intros i Hi. rewrite Hderef by lia. rewrite Z2Nat.id by lia.
  rewrite Hlook, <- option_fmap_compose.
  rewrite (option_fmap_ext _ (fun _ => MAX_SPEED_METERS_PER_SEC)).
  { destruct (lookup_lt_is_Some_2 wps
                (Z.to_nat ((m + i) mod Z.of_nat (length wps)))) as [w ->];
      [|reflexivity].
    pose proof (Z.mod_pos_bound (m + i) (Z.of_nat (length wps)) ltac:(lia)).
    lia. }
  intros w. unfold compose, get_waypoint_velocity.
  apply write_at_fold_const.
  - intros k _. rewrite Ha. apply new_velocity_no_light.
  - right.
    destruct (Z.lt_ge_cases i 198) as [Hlt | Hge].
    + exists i. split; [apply elem_of_py_range; lia|].
      rewrite lookup_islice_cycle by (unfold LOOKAHEAD_WPS; lia).
      rewrite Z2Nat.id by lia. reflexivity.
    + exists (198 - Z.of_nat (length wps)).
      split; [apply elem_of_py_range; lia|].
      rewrite lookup_islice_cycle by (unfold LOOKAHEAD_WPS; lia).
      rewrite Z2Nat.id by lia. do 2 f_equal.
      replace i with 198 by lia.
      replace (m + (198 - Z.of_nat (length wps)))
        with (m + 198 + (-1) * Z.of_nat (length wps)) by lia.
      apply Z_mod_plus_full.
Qed.

(** X12 on a path of three waypoints. *)
Lemma X12_no_stop_short_path_witness :
  let self := ready (line_path 3 5) (at_x 1) (-1) None in
  (closest_wp (line_path 3 5) (at_x 1) (last_wp_id self) = inr 1 /\
   0 <= 1 /\
   (red_light_wp self = -1 \/ 100 <= red_light_wp self - 1) /\
   (length (line_path 3 5) <= 198)%nat) /\
  exists self' lane,
    send_next_waypoints self = (self', Published lane) /\
    length lane = 199%nat /\
    forall i, 0 <= i < 199 ->
      get_waypoint_velocity <$> lane !! Z.to_nat i
        = Some MAX_SPEED_METERS_PER_SEC.
Proof.
  intros self.
  assert (Hc : closest_wp (line_path 3 5) (at_x 1) (last_wp_id self) = inr 1)
    by (vm_compute; reflexivity).
  assert (Hm : 0 <= 1) by lia.
  assert (Hred : red_light_wp self = -1 \/ 100 <= red_light_wp self - 1)
    by (left; reflexivity).
  assert (Hn : (length (line_path 3 5) <= 198)%nat) by (vm_compute; lia).
  split; [auto|].
  exact (X12_no_stop_short_path self (line_path 3 5) (at_x 1) 1
           eq_refl eq_refl Hc Hm Hred Hn).
Defined.

(** X13.  What a publishing cycle does to the stored path of at least 199
    waypoints: the waypoint at the position of each window offset 0 to
    197 gets the velocity of that offset's iteration and keeps its
    position, and every other stored waypoint is left as it was. *)
Theorem X13_cycle_writes_window_only (self : WaypointUpdater)
    (wps : list Waypoint) (pose : Pose) (m : Z) :
  waypoints self = Some wps -> current_pose self = Some pose ->
  closest_wp wps pose (last_wp_id self) = inr m ->
  0 <= m ->
  is_red_light_ahead_of (red_light_wp self) m && (red_light_wp self <=? m)
    = false ->
  (199 <= length wps)%nat ->
  exists self' lane stored,
    send_next_waypoints self = (self', Published lane) /\
    waypoints self' = Some stored /\
    (forall i, 0 <= i < 198 ->
       stored !! window_pos (length wps) m i
         = with_linear_x
             (new_velocity (is_red_light_ahead_of (red_light_wp self) m)
                           (red_light_wp self) m i)
           <$> wps !! window_pos (length wps) m i) /\
    (forall p, (forall i, 0 <= i < 198 -> window_pos (length wps) m i <> p) ->
       stored !! p = wps !! p).
Proof.
  intros Hw Hp Hc Hm Hgo Hn.
  destruct (send_next_waypoints_publishes self wps pose m Hw Hp Hc Hm Hgo)
    as (store & Hsend & _ & Hlook & _ & _).
  eexists _, _, store. split; [exact Hsend|]. split; [reflexivity|]. split.
  - intros i Hi. rewrite Hlook. unfold window_pos.
    apply option_fmap_ext. intros w. apply window_fold_assigned; lia.
  - intros p Hp'. rewrite Hlook.
    rewrite <- (option_fmap_id (wps !! p)) at 2.
    apply option_fmap_ext. intros w. apply write_at_fold_none.
    apply Forall_forall. intros j Hj Hhit. apply elem_of_py_range in Hj.
    rewrite lookup_islice_cycle in Hhit by (unfold LOOKAHEAD_WPS; lia).
    rewrite Z2Nat.id in Hhit by lia. injection Hhit as Hhit.
    exact (Hp' j ltac:(lia) Hhit).
Qed.

(** X13 on the track, the closest waypoint 25 and the stop index 29. *)
Lemma X13_cycle_writes_window_only_witness :
  let self := ready track (at_x 25) 29 None in
  (closest_wp track (at_x 25) (last_wp_id self) = inr 25 /\
   0 <= 25 /\
   is_red_light_ahead_of (red_light_wp self) 25 && (red_light_wp self <=? 25)
     = false /\
   (199 <= length track)%nat) /\
  exists self' lane stored,
    send_next_waypoints self = (self', Published lane) /\
    waypoints self' = Some stored /\
    (forall i, 0 <= i < 198 ->
       stored !! window_pos (length track) 25 i
         = with_linear_x
             (new_velocity (is_red_light_ahead_of (red_light_wp self) 25)
                           (red_light_wp self) 25 i)
           <$> track !! window_pos (length track) 25 i) /\
    (forall p,
       (forall i, 0 <= i < 198 -> window_pos (length track) 25 i <> p) ->
       stored !! p = track !! p).
Proof.
  intros self.
  assert (Hc : closest_wp track (at_x 25) (last_wp_id self) = inr 25)
    by (vm_compute; reflexivity).
  assert (Hm : 0 <= 25) by lia.
  assert (Hgo : is_red_light_ahead_of (red_light_wp self) 25
                && (red_light_wp self <=? 25) = false) by reflexivity.
  assert (Hn : (199 <= length track)%nat) by (vm_compute; lia).
  split; [auto|].
  exact (X13_cycle_writes_window_only self track (at_x 25) 25
           eq_refl eq_refl Hc Hm Hgo Hn).
Defined.

(** ** The velocity profile in full *)

Lemma py_max0_pos (v : Q) : (0 < v)%Q -> py_max0 v = v.
Proof.
  intros H. unfold py_max0. destruct (Qle_bool v 0) eqn:E; [|reflexivity].
  apply Qle_bool_iff in E. exfalso. exact (Qlt_not_le _ _ H E).
Qed.

(** From 5 waypoints before the stop on, the ramp is linear in the number
    of waypoints left and positive: [max(0, _)] leaves it as it is. *)
Lemma ramp_linear (r : Z) :
  5 <= r ->
  (ramp r == MAX_SPEED_METERS_PER_SEC * inject_Z r / inject_Z SLOWDOWN_WPS)%Q
  /\ (0 < ramp r)%Q.
Proof.
  intros Hr. unfold ramp.
  replace (r <? 5) with false by (symmetry; apply Z.ltb_ge; lia).
  assert (Hlin : (MAX_SPEED_METERS_PER_SEC
                  - inject_Z (SLOWDOWN_WPS - r)
                    * (MAX_SPEED_METERS_PER_SEC / inject_Z SLOWDOWN_WPS)
                  == MAX_SPEED_METERS_PER_SEC * inject_Z r
                     / inject_Z SLOWDOWN_WPS)%Q).
  { unfold Z.sub. rewrite inject_Z_plus, inject_Z_opp.
    unfold SLOWDOWN_WPS. change (inject_Z 100) with 100%Q.
    field. }
  assert (Hpos : (0 < MAX_SPEED_METERS_PER_SEC * inject_Z r
                      / inject_Z SLOWDOWN_WPS)%Q).
  { assert (Hr' : (inject_Z 5 <= inject_Z r)%Q) by (rewrite <- Zle_Qle; lia).
    change (inject_Z 5) with 5%Q in Hr'.
    unfold SLOWDOWN_WPS. change (inject_Z 100) with 100%Q.
    pose proof max_speed_pos as Hmax. revert Hmax Hr'.
    generalize MAX_SPEED_METERS_PER_SEC (inject_Z r). intros a b Ha Hb.
    apply Qlt_shift_div_l; [reflexivity|]. nra. }
  rewrite <- Hlin in Hpos. rewrite (py_max0_pos _ Hpos).
  split; [exact Hlin | exact Hpos].
Qed.

(** X14.  With an actionable stop ahead of a valid closest waypoint [m],
    the velocity that the loop passes for a window offset [i >= 0] falls
    in one of three zones.  Up to 5 waypoints before the stop it is
    [V_MAX * remaining / SLOWDOWN_WPS] with [remaining = red - m - i], a
    positive value that the clamp [max(0, _)] never changes.  From there
    up to the offset equal to the stop index [red] itself it is 0: the
    test of line 213 compares the offset with the stop index, not with
    the stop's offset [red - m].  Above [red] it is [V_MAX]. *)
Theorem X14_velocity_zones (red m : Z) :
  0 <= m -> m < red -> red - m < SLOWDOWN_WPS ->
  let nv := new_velocity (is_red_light_ahead_of red m) red m in
  (forall i, 0 <= i <= red - m - 5 ->
     (nv i == MAX_SPEED_METERS_PER_SEC * inject_Z (red - m - i)
              / inject_Z SLOWDOWN_WPS)%Q /\
     (0 < nv i)%Q) /\
  (forall i, red - m - 5 < i <= red -> nv i = 0%Q) /\
  (forall i, red < i -> nv i = MAX_SPEED_METERS_PER_SEC).
Proof.
  intros Hm Hred Hd nv. unfold SLOWDOWN_WPS in Hd.
  assert (Ha : is_red_light_ahead_of red m = true)
    by (apply is_red_light_ahead_of_true; lia).
  unfold nv. rewrite Ha. split; [|split].
  - intros i Hi. rewrite new_velocity_before by lia.
    apply ramp_linear. lia.
  - intros i Hi. rewrite new_velocity_before by lia.
    apply ramp_hard_stop. lia.
  - intros i Hi. apply new_velocity_after. exact Hi.
Qed.

(** X14 at the closest waypoint 50 and the stop index 90. *)
Lemma X14_velocity_zones_witness :
  let nv := new_velocity (is_red_light_ahead_of 90 50) 90 50 in
  (0 <= 50 /\ 50 < 90 /\ 90 - 50 < SLOWDOWN_WPS) /\
  (forall i, 0 <= i <= 90 - 50 - 5 ->
     (nv i == MAX_SPEED_METERS_PER_SEC * inject_Z (90 - 50 - i)
              / inject_Z SLOWDOWN_WPS)%Q /\
     (0 < nv i)%Q) /\
  (forall i, 90 - 50 - 5 < i <= 90 -> nv i = 0%Q) /\
  (forall i, 90 < i -> nv i = MAX_SPEED_METERS_PER_SEC).
Proof.
  intros nv.
  assert (H1 : 0 <= 50) by lia.
  assert (H2 : 50 < 90) by lia.
  assert (H3 : 90 - 50 < SLOWDOWN_WPS) by (unfold SLOWDOWN_WPS; lia).
  split; [auto|].
  exact (X14_velocity_zones 90 50 H1 H2 H3).
Defined.

(** ** The empty path *)

(** X15.  With an empty stored path and a pose, every cycle raises and
    changes nothing: [TypeError] from [self.waypoints[None]] when
    [last_wp_id] is unset (the scan visits no index), [IndexError] from
    the first index of the windowed scan otherwise. *)
Theorem X15_empty_path_raises (self : WaypointUpdater) (pose : Pose) :
  waypoints self = Some [] -> current_pose self = Some pose ->
  send_next_waypoints self
    = (self, Raised (match last_wp_id self with
                     | None => TypeError
                     | Some _ => IndexError
                     end)).
Proof.
  intros Hw Hp. unfold send_next_waypoints. rewrite Hw, Hp.
  destruct (last_wp_id self) as [l|].
  - rewrite closest_wp_windowed_raises; [reflexivity|]. simpl. lia.
  - reflexivity.
Qed.

(** X15 for an empty path delivered after a pose. *)
Lemma X15_empty_path_raises_witness :
  let self := mkWaypointUpdater (Some []) (Some (at_x 3)) (-1) None None in
  (waypoints self = Some [] /\ current_pose self = Some (at_x 3)) /\
  send_next_waypoints self = (self, Raised TypeError).
Proof.
  intros self. split; [split; reflexivity|].
  exact (X15_empty_path_raises self (at_x 3) eq_refl eq_refl).
Defined.

(** ** Callbacks keep what they receive *)

(** X16.  Each callback stores its message before the cycle runs, and the
    message stays stored however the cycle ends, also when it raises:
    after [pose_cb] the pose is the one received, after [traffic_cb] the
    stop index is the one received, and after [traffic_state_cb] the light
    state is the one received and nothing else has changed. *)
Theorem X16_callbacks_store_message (self : WaypointUpdater) (msg : Pose)
    (light_idx state : Z) :
  current_pose (fst (pose_cb self msg)) = Some msg /\
  red_light_wp (fst (pose_cb self msg)) = red_light_wp self /\
  red_light_wp (fst (traffic_cb self light_idx)) = light_idx /\
  current_pose (fst (traffic_cb self light_idx)) = current_pose self /\
  traffic_state_cb self state
    = mkWaypointUpdater (waypoints self) (current_pose self)
        (red_light_wp self) (last_wp_id self) (Some state).
Proof.
  unfold pose_cb, traffic_cb.
  destruct (send_next_waypoints_fields (set_current_pose self msg))
    as (Hp & Hr & _).
  destruct (send_next_waypoints_fields (set_red_light_wp self light_idx))
    as (Hp' & Hr' & _).
  rewrite Hp, Hr, Hp', Hr'. repeat split; reflexivity.
Qed.

(** ** [distance] *)

Lemma py_getitem_invalid {A} (l : list A) (i : Z) :
  i < - Z.of_nat (length l) \/ Z.of_nat (length l) <= i ->
  py_getitem l i = inl IndexError.
Proof.
  intros H. unfold py_getitem. rewrite py_index_invalid by exact H.
  reflexivity.
Qed.

Lemma py_getitem_some {A} (l : list A) (i : Z) :
  - Z.of_nat (length l) <= i < Z.of_nat (length l) ->
  exists a, py_getitem l i = inr a.
Proof.
  intros H. destruct (py_getitem_valid l i H) as (a & Ha & _). eauto.
Qed.

(** The loop over [range(a, b)] with a valid loop-carried [wp1] returns
    when the range ends inside the path and raises [IndexError] when it
    passes the end. *)
Lemma distance_loop_range (sqrt : Q -> Q) (wps : list Waypoint) (k : nat) :
  forall (a b wp1 : Z) (dist : Q),
  Z.to_nat (b - a) = k ->
  - Z.of_nat (length wps) <= wp1 < Z.of_nat (length wps) ->
  - Z.of_nat (length wps) <= a <= Z.of_nat (length wps) -> a <= b ->
  if b <=? Z.of_nat (length wps)
  then exists d, distance_loop sqrt wps (py_range a b) wp1 dist = inr d
  else distance_loop sqrt wps (py_range a b) wp1 dist = inl IndexError.
Proof.
  induction k as [|k IH]; intros a b wp1 dist Hk Hwp1 Ha Hab.
  - rewrite py_range_nil by lia.
    replace (b <=? Z.of_nat (length wps)) with true
      by (symmetry; apply Z.leb_le; lia).
    simpl. eauto.
  - rewrite (py_range_cons a b) by lia. simpl.
    destruct (py_getitem_some wps wp1 Hwp1) as [w1 ->].
    destruct (Z.lt_ge_cases a (Z.of_nat (length wps))) as [HaN | HaN].
    + destruct (py_getitem_some wps a ltac:(lia)) as [wa ->].
      apply IH; lia.
    + rewrite py_getitem_invalid by lia.
      replace (b <=? Z.of_nat (length wps)) with false
        by (symmetry; apply Z.leb_gt; lia).
      reflexivity.
Qed.

(** X17.  [distance(waypoints, wp1, wp2)] by its indices.  With
    [wp2 < wp1] it returns 0 without reading a waypoint, whatever the
    indices are.  With [wp1 <= wp2] it returns a value when
    [-N <= wp1] and [wp2 < N] (a negative index counts from the end of
    the list), and raises [IndexError] otherwise. *)
Theorem X17_distance_indices (sqrt : Q -> Q) (wps : list Waypoint)
    (wp1 wp2 : Z) :
  (wp2 < wp1 -> distance sqrt wps wp1 wp2 = inr 0%Q) /\
  (wp1 <= wp2 ->
   - Z.of_nat (length wps) <= wp1 -> wp2 < Z.of_nat (length wps) ->
   exists d, distance sqrt wps wp1 wp2 = inr d) /\
  (wp1 <= wp2 ->
   wp1 < - Z.of_nat (length wps) \/ Z.of_nat (length wps) <= wp2 ->
   distance sqrt wps wp1 wp2 = inl IndexError).
Proof.
  unfold distance. split; [|split].
  - intros H. rewrite py_range_nil by lia. reflexivity.
  - intros Hle Hlo Hhi.
    pose proof (distance_loop_range sqrt wps (Z.to_nat (wp2 + 1 - wp1))
                  wp1 (wp2 + 1) wp1 0%Q eq_refl) as H.
    replace (wp2 + 1 <=? Z.of_nat (length wps)) with true in H
      by (symmetry; apply Z.leb_le; lia).
    apply H; lia.
  - intros Hle Hout.
    destruct (Z.lt_ge_cases wp1 (- Z.of_nat (length wps))) as [Hlo | Hlo];
      [|destruct (Z.lt_ge_cases wp1 (Z.of_nat (length wps))) as [Hhi | Hhi]].
    + rewrite (py_range_cons wp1 (wp2 + 1)) by lia. simpl.
      rewrite py_getitem_invalid by lia. reflexivity.
    + pose proof (distance_loop_range sqrt wps (Z.to_nat (wp2 + 1 - wp1))
                    wp1 (wp2 + 1) wp1 0%Q eq_refl) as H.
      replace (wp2 + 1 <=? Z.of_nat (length wps)) with false in H
        by (symmetry; apply Z.leb_gt; lia).
      apply H; lia.
    + rewrite (py_range_cons wp1 (wp2 + 1)) by lia. simpl.
      rewrite py_getitem_invalid by lia. reflexivity.
Qed.

Lemma dl_nonneg (sqrt : Q -> Q) (a b : Waypoint) :
  (forall x, (0 <= x)%Q -> (0 <= sqrt x)%Q) -> (0 <= dl sqrt a b)%Q.
Proof.
  intros Hsqrt. unfold dl. apply Hsqrt. rewrite !Qsquare.
  pose proof (square_nonneg (position_x a - position_x b)) as Hx.
  pose proof (square_nonneg (position_y a - position_y b)) as Hy.
  pose proof (square_nonneg (position_z a - position_z b)) as Hz.
  revert Hx Hy Hz.
  generalize ((position_x a - position_x b) * (position_x a - position_x b))%Q
             ((position_y a - position_y b) * (position_y a - position_y b))%Q
             ((position_z a - position_z b) * (position_z a - position_z b))%Q.
  intros x y z Hx Hy Hz. lra.
Qed.

Lemma distance_loop_ge (sqrt : Q -> Q) (wps : list Waypoint) (offs : list Z) :
  (forall x, (0 <= x)%Q -> (0 <= sqrt x)%Q) ->
  forall (wp1 : Z) (dist d : Q),
  distance_loop sqrt wps offs wp1 dist = inr d -> (dist <= d)%Q.
Proof.
  intros Hsqrt. induction offs as [|i offs IH]; intros wp1 dist d; simpl.
  - intros [= <-]. apply Qle_refl.
  - destruct (py_getitem wps wp1) as [e|a]; [discriminate|].
    destruct (py_getitem wps i) as [e|b]; [discriminate|].
    intros H. apply IH in H.
    pose proof (dl_nonneg sqrt a b Hsqrt) as Hdl. lra.
Qed.

Lemma distance_loop_app (sqrt : Q -> Q) (wps : list Waypoint)
    (l1 l2 : list Z) : forall (wp1 : Z) (dist : Q),
  distance_loop sqrt wps (l1 ++ l2) wp1 dist
    = match distance_loop sqrt wps l1 wp1 dist with
      | inl e => inl e
      | inr d =>
        distance_loop sqrt wps l2 (fold_left (fun _ i => i) l1 wp1) d
      end.
Proof.
  induction l1 as [|i l1 IH]; intros wp1 dist; [reflexivity|].
  cbn [app distance_loop fold_left].
  destruct (py_getitem wps wp1) as [e|a]; [reflexivity|].
  destruct (py_getitem wps i) as [e|b]; [reflexivity|].
  apply IH.
Qed.

(** X18.  With a square root that is not negative, a distance is not
    negative and does not decrease when the end index moves one
    waypoint further. *)
Theorem X18_distance_monotone (sqrt : Q -> Q) (wps : list Waypoint)
    (wp1 wp2 : Z) (d d' : Q) :
  (forall x, (0 <= x)%Q -> (0 <= sqrt x)%Q) ->
  distance sqrt wps wp1 wp2 = inr d ->
  distance sqrt wps wp1 (wp2 + 1) = inr d' ->
  (0 <= d <= d')%Q.
Proof.
  intros Hsqrt Hd Hd'. unfold distance in *. split.
  - exact (distance_loop_ge sqrt wps _ Hsqrt _ _ _ Hd).
  - destruct (Z.lt_ge_cases (wp2 + 1) wp1) as [Hlt | Hge].
    + rewrite py_range_nil in Hd, Hd' by lia. simpl in Hd, Hd'.
      injection Hd as <-. injection Hd' as <-. apply Qle_refl.
    + rewrite (py_range_split wp1 (wp2 + 1) (wp2 + 1 + 1)) in Hd' by lia.
      rewrite distance_loop_app, Hd in Hd'.
      exact (distance_loop_ge sqrt wps _ Hsqrt _ _ _ Hd').
Qed.

(** X18 on a path of five waypoints one unit apart, with the identity in
    the place of the square root: the distances from waypoint 1 to the
    waypoints 3 and 4 are 2 and 3. *)
Lemma X18_distance_monotone_witness :
  (forall x, (0 <= x)%Q -> (0 <= (fun y : Q => y) x)%Q) /\
  distance (fun y => y) (line_path 5 5) 1 3 = inr (0 + 0 + 1 + 1)%Q /\
  distance (fun y => y) (line_path 5 5) 1 (3 + 1)
    = inr (0 + 0 + 1 + 1 + 1)%Q /\
  (0 <= 0 + 0 + 1 + 1 <= 0 + 0 + 1 + 1 + 1)%Q.
Proof.
  assert (Hsqrt : forall x, (0 <= x)%Q -> (0 <= (fun y : Q => y) x)%Q)
    by (intros x Hx; exact Hx).
  assert (Hd : distance (fun y => y) (line_path 5 5) 1 3
               = inr (0 + 0 + 1 + 1)%Q) by (vm_compute; reflexivity).
  assert (Hd' : distance (fun y => y) (line_path 5 5) 1 (3 + 1)
                = inr (0 + 0 + 1 + 1 + 1)%Q) by (vm_compute; reflexivity).
  split; [exact Hsqrt|]. split; [exact Hd|]. split; [exact Hd'|].
  exact (X18_distance_monotone (fun y => y) (line_path 5 5) 1 3 _ _
           Hsqrt Hd Hd').
Defined.

(** * The velocity profile as published *)

(** ** Paths of at least 198 waypoints *)

(** On a path of at least 198 waypoints the references of the window
    offsets 0 to 197, the offsets that the speed loop writes, are pairwise
    distinct. *)
Lemma written_ref_inj (n : nat) (m i j : Z) :
  (198 <= n)%nat -> 0 <= i < 198 -> 0 <= j < 198 ->
  islice_cycle n m (m + LOOKAHEAD_WPS - 1) !! Z.to_nat j
    = Some (Z.to_nat ((m + i) mod Z.of_nat n)) ->
  j = i.
Proof.
  intros Hn Hi Hj. rewrite lookup_islice_cycle by (unfold LOOKAHEAD_WPS; lia).
  rewrite Z2Nat.id by lia. intros [= Heq].
  pose proof (Z.mod_pos_bound (m + i) (Z.of_nat n) ltac:(lia)).
  pose proof (Z.mod_pos_bound (m + j) (Z.of_nat n) ltac:(lia)).
  apply (mod_offset_inj (Z.of_nat n) m); lia.
Qed.

Lemma written_fold_assigned (ahead : bool) (red m : Z) (n : nat) (i : Z)
    (w : Waypoint) :
  (198 <= n)%nat -> 0 <= i < 198 ->
  fold_left (write_at ahead red m (islice_cycle n m (m + LOOKAHEAD_WPS - 1))
               (Z.to_nat ((m + i) mod Z.of_nat n)))
            (py_range 0 198) w
    = with_linear_x (new_velocity ahead red m i) w.
Proof.
  intros Hn Hi. rewrite (py_range_split 0 i 198) by lia.
  rewrite write_at_fold_one.
  - pose proof (write_at_fold_place ahead red m
                  (islice_cycle n m (m + LOOKAHEAD_WPS - 1))
                  (Z.to_nat ((m + i) mod Z.of_nat n)) (py_range 0 i) w)
      as Hplace.
    injection Hplace as Hx Hy Hz.
    unfold with_linear_x. rewrite Hx, Hy, Hz. reflexivity.
  - rewrite lookup_islice_cycle by (unfold LOOKAHEAD_WPS; lia).
    rewrite Z2Nat.id by lia. reflexivity.
  - apply Forall_forall. intros j Hj Hhit. apply elem_of_py_range in Hj.
    apply written_ref_inj in Hhit; lia.
Qed.

(** A publishing cycle on a path of at least 198 waypoints: through the
    speed loop and [set_waypoint_velocity], the element of the published
    window at each offset 0 to 197 carries the velocity of the iteration
    of that offset. *)
Lemma send_next_waypoints_assigned (self : WaypointUpdater)
    (wps : list Waypoint) (pose : Pose) (m : Z) :
  waypoints self = Some wps -> current_pose self = Some pose ->
  closest_wp wps pose (last_wp_id self) = inr m ->
  0 <= m ->
  is_red_light_ahead_of (red_light_wp self) m && (red_light_wp self <=? m)
    = false ->
  (198 <= length wps)%nat ->
  exists self' lane,
    send_next_waypoints self = (self', Published lane) /\
    forall i, 0 <= i < 198 ->
      get_waypoint_velocity <$> lane !! Z.to_nat i
        = Some (new_velocity (is_red_light_ahead_of (red_light_wp self) m)
                             (red_light_wp self) m i).
Proof.
  intros Hw Hp Hc Hm Hgo Hn.
  destruct (send_next_waypoints_publishes self wps pose m Hw Hp Hc Hm Hgo)
    as (store & Hsend & _ & Hlook & _ & Hderef).
  eexists _, _. split; [exact Hsend|].
  intros i Hi. rewrite Hderef by lia. rewrite Z2Nat.id by lia.
  rewrite Hlook, <- option_fmap_compose.
  destruct (lookup_lt_is_Some_2 wps
              (Z.to_nat ((m + i) mod Z.of_nat (length wps)))) as [w ->].
  { pose proof (Z.mod_pos_bound (m + i) (Z.of_nat (length wps)) ltac:(lia)).
    lia. }
  cbn [fmap option_fmap option_map compose]. f_equal.
  rewrite written_fold_assigned by lia. reflexivity.
Qed.

(** C2, amended.  On a path of at least 198 waypoints, where the speed
    loop writes no stored waypoint twice, when a stop is actionable and
    ahead of the valid closest waypoint [m], the cycle publishes a window
    that carries the speed 0 at the stop's relative offset [red - m] and
    at every offset less than 5 before it, and the maximum speed at every
    offset [i] with [red < i <= 197], the offsets above the stop index
    that the speed loop reaches.  With the closest waypoint 25 and the
    stop index 29: 0 at the offsets 0 to 4, the maximum speed at the
    offsets 30 to 197. *)
Theorem C2_stop_and_resume (self : WaypointUpdater) (wps : list Waypoint)
    (pose : Pose) (m : Z) :
  waypoints self = Some wps -> current_pose self = Some pose ->
  closest_wp wps pose (last_wp_id self) = inr m ->
  0 <= m -> m < red_light_wp self ->
  red_light_wp self - m < SLOWDOWN_WPS ->
  (198 <= length wps)%nat ->
  exists self' lane,
    send_next_waypoints self = (self', Published lane) /\
    get_waypoint_velocity <$> lane !! Z.to_nat (red_light_wp self - m)
      = Some 0%Q /\
    (forall i, 0 <= i ->
       red_light_wp self - m - 5 < i <= red_light_wp self - m ->
       get_waypoint_velocity <$> lane !! Z.to_nat i = Some 0%Q) /\
    (forall i, red_light_wp self < i <= 197 ->
       get_waypoint_velocity <$> lane !! Z.to_nat i
         = Some MAX_SPEED_METERS_PER_SEC).
Proof.
  intros Hw Hp Hc Hm Hred Hd Hn. unfold SLOWDOWN_WPS in Hd.
  assert (Ha : is_red_light_ahead_of (red_light_wp self) m = true)
    by (apply is_red_light_ahead_of_true; lia).
  destruct (send_next_waypoints_assigned self wps pose m Hw Hp Hc Hm)
    as (self' & lane & Hsend & Hsp); [|exact Hn|].
  { rewrite Ha. simpl. apply Z.leb_gt. lia. }
  rewrite Ha in Hsp.
  exists self', lane. split; [exact Hsend|]. split; [|split].
  - rewrite Hsp by lia. rewrite new_velocity_before by lia.
    f_equal. apply ramp_hard_stop. lia.
  - intros i Hi Hi'. rewrite Hsp by lia. rewrite new_velocity_before by lia.
    f_equal. apply ramp_hard_stop. lia.
  - intros i Hi. rewrite Hsp by lia. f_equal.
    apply new_velocity_after. lia.
Qed.

(** C2, amended, on the track at the closest waypoint 25 and the stop
    index 29. *)
Lemma C2_stop_and_resume_witness :
  let self := ready track (at_x 25) 29 None in
  (closest_wp track (at_x 25) (last_wp_id self) = inr 25 /\
   0 <= 25 /\ 25 < red_light_wp self /\
   red_light_wp self - 25 < SLOWDOWN_WPS /\
   (198 <= length track)%nat) /\
  exists self' lane,
    send_next_waypoints self = (self', Published lane) /\
    get_waypoint_velocity <$> lane !! Z.to_nat (red_light_wp self - 25)
      = Some 0%Q /\
    (forall i, 0 <= i ->
       red_light_wp self - 25 - 5 < i <= red_light_wp self - 25 ->
       get_waypoint_velocity <$> lane !! Z.to_nat i = Some 0%Q) /\
    (forall i, red_light_wp self < i <= 197 ->
       get_waypoint_velocity <$> lane !! Z.to_nat i
         = Some MAX_SPEED_METERS_PER_SEC).
Proof.
  intros self.
  assert (Hc : closest_wp track (at_x 25) (last_wp_id self) = inr 25)
    by (vm_compute; reflexivity).
  assert (Hm : 0 <= 25) by lia.
  assert (Hred : 25 < red_light_wp self) by (simpl; lia).
  assert (Hd : red_light_wp self - 25 < SLOWDOWN_WPS)
    by (unfold SLOWDOWN_WPS; simpl; lia).
  assert (Hn : (198 <= length track)%nat) by (vm_compute; lia).
  split; [auto 10|].
  exact (C2_stop_and_resume self track (at_x 25) 25 eq_refl eq_refl
           Hc Hm Hred Hd Hn).
Defined.

(** C9.  The claim asks, for a stop at the relative offset [k] with
    [5 <= k < SLOWDOWN_WPS], for the speed 0 at the window offset [k] and
    for speeds that follow the ramp over the offsets 0 to [k].  On a path
    of 150 waypoints with the closest waypoint 100 and the stop index 140
    ([k = 40]) the iteration of offset 40 passes the velocity 0 to
    [set_waypoint_velocity], but the window laps the path: offset 190
    refers to the same stored waypoint 140, and its iteration, above the
    stop index, writes the maximum speed to it.  The published window
    carries the maximum speed at offset 40, and at offset 0 too, where
    the ramp is below the maximum speed. *)
Theorem C9_stop_overwritten_on_short_path :
  let self := ready (line_path 150 5) (at_x 100) 140 None in
  closest_wp (line_path 150 5) (at_x 100) (last_wp_id self) = inr 100 /\
  is_red_light_ahead_of (red_light_wp self) 100 = true /\
  5 <= red_light_wp self - 100 < SLOWDOWN_WPS /\
  new_velocity true (red_light_wp self) 100 40 = 0%Q /\
  (new_velocity true (red_light_wp self) 100 0 < MAX_SPEED_METERS_PER_SEC)%Q /\
  window_pos 150 100 40 = 140%nat /\
  window_pos 150 100 190 = 140%nat /\
  new_velocity true (red_light_wp self) 100 190 = MAX_SPEED_METERS_PER_SEC /\
  exists self' lane,
    send_next_waypoints self = (self', Published lane) /\
    get_waypoint_velocity <$> lane !! 0%nat = Some MAX_SPEED_METERS_PER_SEC /\
    get_waypoint_velocity <$> lane !! 40%nat = Some MAX_SPEED_METERS_PER_SEC /\
    ~ (MAX_SPEED_METERS_PER_SEC == 0)%Q.
Proof.
  intros self.
  split; [vm_compute; reflexivity|]. split; [reflexivity|].
  split; [unfold SLOWDOWN_WPS; simpl; lia|]. split; [reflexivity|].
  split; [reflexivity|].
  split; [reflexivity|]. split; [reflexivity|]. split; [reflexivity|].
  eexists _, _. split; [vm_compute; reflexivity|].
  split; [vm_compute; reflexivity|]. split; [vm_compute; reflexivity|].
  vm_compute. discriminate.
Qed.

(** X19.  On a path of at least 198 waypoints, with a stop at the
    relative offset [k = red - m] of the valid closest waypoint [m],
    [5 <= k < SLOWDOWN_WPS], the cycle publishes a window whose speed at
    offset [k] is 0 and whose speeds at the offsets 0 to [k] follow the
    clamped ramp at [remaining = k - i], lie between 0 and the maximum
    speed, and do not increase with the offset. *)
Theorem X19_published_braking_ramp (self : WaypointUpdater)
    (wps : list Waypoint) (pose : Pose) (m k : Z) :
  waypoints self = Some wps -> current_pose self = Some pose ->
  closest_wp wps pose (last_wp_id self) = inr m ->
  0 <= m -> k = red_light_wp self - m -> 5 <= k < SLOWDOWN_WPS ->
  (198 <= length wps)%nat ->
  exists self' lane,
    send_next_waypoints self = (self', Published lane) /\
    get_waypoint_velocity <$> lane !! Z.to_nat k = Some 0%Q /\
    (forall i, 0 <= i <= k ->
       exists v,
         get_waypoint_velocity <$> lane !! Z.to_nat i = Some v /\
         v = py_max0 (if k - i <? 5 then 0%Q
                      else (MAX_SPEED_METERS_PER_SEC
                            - inject_Z (SLOWDOWN_WPS - (k - i))
                              * (MAX_SPEED_METERS_PER_SEC
                                 / inject_Z SLOWDOWN_WPS))%Q) /\
         (0 <= v <= MAX_SPEED_METERS_PER_SEC)%Q) /\
    (forall i j vi vj, 0 <= i -> i <= j -> j <= k ->
       get_waypoint_velocity <$> lane !! Z.to_nat i = Some vi ->
       get_waypoint_velocity <$> lane !! Z.to_nat j = Some vj ->
       (vj <= vi)%Q).
Proof.
  intros Hw Hp Hc Hm Hk Hkr Hn. unfold SLOWDOWN_WPS in Hkr.
  assert (Ha : is_red_light_ahead_of (red_light_wp self) m = true)
    by (apply is_red_light_ahead_of_true; lia).
  destruct (send_next_waypoints_assigned self wps pose m Hw Hp Hc Hm)
    as (self' & lane & Hsend & Hsp); [|exact Hn|].
  { rewrite Ha. simpl. apply Z.leb_gt. lia. }
  rewrite Ha in Hsp.
  assert (Hramp : forall i, 0 <= i <= k ->
            get_waypoint_velocity <$> lane !! Z.to_nat i
              = Some (ramp (k - i))).
  { intros i Hi. rewrite Hsp by lia. rewrite new_velocity_before by lia.
    do 2 f_equal. lia. }
  exists self', lane. split; [exact Hsend|]. split; [|split].
  - rewrite Hramp by lia. f_equal. apply ramp_hard_stop. lia.
  - intros i Hi. exists (ramp (k - i)). split; [apply Hramp; lia|].
    split; [reflexivity|]. split.
    + apply ramp_nonneg.
    + apply ramp_le_max. unfold SLOWDOWN_WPS. lia.
  - intros i j vi vj Hi Hij Hj Hvi Hvj.
    rewrite Hramp in Hvi, Hvj by lia.
    injection Hvi as <-. injection Hvj as <-. apply ramp_mono. lia.
Qed.

(** X19 on the track at the closest waypoint 50 and the stop index 90. *)
Lemma X19_published_braking_ramp_witness :
  let self := ready track (at_x 50) 90 None in
  (closest_wp track (at_x 50) (last_wp_id self) = inr 50 /\
   0 <= 50 /\ 40 = red_light_wp self - 50 /\ 5 <= 40 < SLOWDOWN_WPS /\
   (198 <= length track)%nat) /\
  exists self' lane,
    send_next_waypoints self = (self', Published lane) /\
    get_waypoint_velocity <$> lane !! Z.to_nat 40 = Some 0%Q /\
    (forall i, 0 <= i <= 40 ->
       exists v,
         get_waypoint_velocity <$> lane !! Z.to_nat i = Some v /\
         v = py_max0 (if 40 - i <? 5 then 0%Q
                      else (MAX_SPEED_METERS_PER_SEC
                            - inject_Z (SLOWDOWN_WPS - (40 - i))
                              * (MAX_SPEED_METERS_PER_SEC
                                 / inject_Z SLOWDOWN_WPS))%Q) /\
         (0 <= v <= MAX_SPEED_METERS_PER_SEC)%Q) /\
    (forall i j vi vj, 0 <= i -> i <= j -> j <= 40 ->
       get_waypoint_velocity <$> lane !! Z.to_nat i = Some vi ->
       get_waypoint_velocity <$> lane !! Z.to_nat j = Some vj ->
       (vj <= vi)%Q).
Proof.
  intros self.
  assert (Hc : closest_wp track (at_x 50) (last_wp_id self) = inr 50)
    by (vm_compute; reflexivity).
  assert (Hm : 0 <= 50) by lia.
  assert (Hk : 40 = red_light_wp self - 50) by reflexivity.
  assert (Hkr : 5 <= 40 < SLOWDOWN_WPS) by (unfold SLOWDOWN_WPS; lia).
  assert (Hn : (198 <= length track)%nat) by (vm_compute; lia).
  split; [auto 10|].
  exact (X19_published_braking_ramp self track (at_x 50) 50 40
           eq_refl eq_refl Hc Hm Hk Hkr Hn).
Defined.

(** ** The range of the localised index *)

(** X20.  The index that localisation returns is one of the indices it
    scanned: an index of [0 .. N - 1] without [lastIndex], and an index of
    [lastIndex - 20 .. lastIndex + 19] with it, so that one cycle moves
    [last_wp_id] at most 20 waypoints back and 19 ahead, wherever the
    car is; and it is an index that Python accepts for the path. *)
Theorem X20_localised_index_range (wps : list Waypoint) (pose : Pose)
    (last : option Z) (m : Z) :
  closest_wp wps pose last = inr m ->
  - Z.of_nat (length wps) <= m < Z.of_nat (length wps) /\
  match last with
  | None => 0 <= m
  | Some l => l - 20 <= m < l + 20
  end.
Proof.
  intros Hc. split; [exact (closest_wp_in_range _ _ _ _ Hc)|].
  unfold closest_wp, scan_path in Hc.
  destruct (scan_bounds wps last) as [a b] eqn:Hb.
  destruct (scan_loop wps (pose_x pose) (pose_y pose) (py_range a b)
              scan_init) as [s [e|]] eqn:Hs; [discriminate|].
  destruct (min_loc s) as [m'|] eqn:Hm; [|discriminate].
  destruct (py_getitem wps m'); [discriminate|].
  injection Hc as ->.
  apply scan_loop_min_loc in Hs. rewrite Hm in Hs.
  destruct Hs as [Hs | (i & Hi & Hs)]; [discriminate|].
  injection Hs as ->. apply elem_of_py_range in Hi.
  destruct last as [l|]; simpl in Hb; injection Hb as <- <-; lia.
Qed.

(** X20 on the track with [lastIndex = 100] and the car at waypoint 150:
    the scan returns 119. *)
Lemma X20_localised_index_range_witness :
  closest_wp track (at_x 150) (Some 100) = inr 119 /\
  - Z.of_nat (length track) <= 119 < Z.of_nat (length track) /\
  100 - 20 <= 119 < 100 + 20.
Proof.
  assert (Hc : closest_wp track (at_x 150) (Some 100) = inr 119)
    by (vm_compute; reflexivity).
  split; [exact Hc|].
  exact (X20_localised_index_range track (at_x 150) (Some 100) 119 Hc).
Defined.
